(** * Live cricket commentary pipeline: ring buffer, drain queue, scoreboard fold

    A shallow embedding of the event pipeline of the commentary app:

    - [RingBuffer]: the class [RingBuffer] of App.js (constructor, [push],
      [toArrayDesc]);
    - [App]: the accumulator [applyEvent] of App.js and the two interval
      callbacks of the [App] component (producer tick, drain tick);
    - [Feed]: the reducer accumulator [applyEvent] of
      src/components/test.js (CommentaryFeed.js) with [formatOvers];
    - [Streams], [Cards]: the event streams (mockStream.js, the simulated
      stream of test.js) and the choice of card of the two renderers;
    - [Effects]: the two accumulators as programs over a heap of objects,
      the clock, the random source and the console.

    JavaScript numbers are modelled as unbounded integers plus [NaN]
    (fractions, infinities, signed zero and rounding above 2^53 are outside
    the model).  A value read from a payload field that is meant to be
    numeric is one of [undefined], [null], a boolean or a number; strings
    and objects in such a field are outside the model. *)

From Stdlib Require Import ZArith Lia Ascii String.
From stdpp Require Import base option list strings.
From Equations Require Import Equations.

Set Default Proof Using "Type".

(** ** JavaScript numbers and coercions *)

Module JS.

(** An integer-valued number, or NaN. *)
Inductive number : Type :=
| Int (z : Z)
| NaN.

(** The primitives that may sit in a numeric payload field. *)
Inductive value : Type :=
| VUndefined
| VNull
| VBool (b : bool)
| VNum (n : number).

#[global] Instance number_eq_dec : EqDecision number.
Proof. solve_decision. Defined.

#[global] Instance value_eq_dec : EqDecision value.
Proof. solve_decision. Defined.

(** [Number(v)] / ToNumber. *)
Definition Number (v : value) : number :=
  match v with
  | VUndefined => NaN
  | VNull => Int 0
  | VBool true => Int 1
  | VBool false => Int 0
  | VNum n => n
  end.

(** [a + b] on numbers. *)
Definition add (a b : number) : number :=
  match a, b with
  | Int x, Int y => Int (x + y)
  | _, _ => NaN
  end.

(** [a > k] and [a >= k]: any comparison with NaN is false. *)
Definition gt (a : number) (k : Z) : bool :=
  match a with Int x => (k <? x)%Z | NaN => false end.

Definition ge (a : number) (k : Z) : bool :=
  match a with Int x => (k <=? x)%Z | NaN => false end.

(** [Math.floor(a / k)] for a positive integer constant [k]. *)
Definition floor_div (a : number) (k : Z) : number :=
  match a with Int x => Int (x / k) | NaN => NaN end.

(** [a % k]: the remainder takes the sign of the dividend. *)
Definition rem (a : number) (k : Z) : number :=
  match a with Int x => Int (Z.rem x k) | NaN => NaN end.

(** Truthiness of a number: [0] and [NaN] are falsy. *)
Definition truthy (a : number) : bool :=
  match a with Int x => negb (x =? 0)%Z | NaN => false end.

(** [a || d] on numbers. *)
Definition or_default (a d : number) : number :=
  if truthy a then a else d.

(** [Math.min(a, b)]. *)
Definition min (a b : number) : number :=
  match a, b with
  | Int x, Int y => Int (Z.min x y)
  | _, _ => NaN
  end.

(** The outcome of a call: a value, or a thrown [TypeError] (reading a
    property of [undefined]). *)
Inductive result (A : Type) : Type :=
| Ok (a : A)
| TypeError.
Arguments Ok {A} a.
Arguments TypeError {A}.

Definition bind {A B : Type} (r : result A) (k : A → result B) : result B :=
  match r with
  | Ok a => k a
  | TypeError => TypeError
  end.

(** Left-to-right iteration of a fallible step, stopping at the first
    exception. *)
Fixpoint foldM {S E : Type} (step : S → E → result S) (s : S) (es : list E) : result S :=
  match es with
  | [] => Ok s
  | e :: es' => bind (step s e) (λ s', foldM step s' es')
  end.

(** [s.toLowerCase()] on ASCII strings. *)
Definition lower_char (c : ascii) : ascii :=
  let n := nat_of_ascii c in
  if decide (65 ≤ n ∧ n ≤ 90) then ascii_of_nat (n + 32) else c.

Fixpoint toLowerCase (s : string) : string :=
  match s with
  | EmptyString => EmptyString
  | String c s' => String (lower_char c) (toLowerCase s')
  end.

(** [s.includes(pat)]. *)
Fixpoint includes (s pat : string) : bool :=
  if String.prefix pat s then true
  else match s with
       | EmptyString => false
       | String _ s' => includes s' pat
       end.

(** [arr.splice(start)]: the removed tail, and what stays in the array. *)
Definition splice {A : Type} (arr : list A) (start : nat) : list A * list A :=
  (drop start arr, take start arr).

End JS.

(** ** Event model *)

Module Event.

(** The payload fields the pipeline reads; [commentary] stands for the
    display-only ones. *)
Record Payload : Type := mkPayload {
  runs : JS.value;
  status : option string;
  commentary : option string;
}.

(** [{}] *)
Definition empty : Payload :=
  {| runs := JS.VUndefined; status := None; commentary := None |}.

Record t : Type := mk {
  type : string;
  payload : option Payload;
  id : string;
  timestamp : string;
}.

#[global] Instance Payload_eq_dec : EqDecision Payload.
Proof. solve_decision. Defined.

#[global] Instance t_eq_dec : EqDecision t.
Proof. solve_decision. Defined.

End Event.

(** ** Ring buffer *)

Module RingBuffer.

(** What an array cell of [buf] can hold: the [null] the constructor
    fills in, a hole ([undefined]) or a pushed item. *)
Inductive slot (A : Type) : Type :=
| Null
| Undefined
| Item (a : A).
Arguments Null {A}.
Arguments Undefined {A}.
Arguments Item {A} a.

Record t (A : Type) : Type := mk {
  limit : nat;
  buf : list (slot A);
  head : nat;
  count : nat;
}.
Arguments mk {A}.
Arguments limit {A}.
Arguments buf {A}.
Arguments head {A}.
Arguments count {A}.

Section ops.
Context {A : Type}.

(** [arr[i]]: reading past the end gives [undefined]. *)
Definition load (arr : list (slot A)) (i : nat) : slot A :=
  default Undefined (arr !! i).

(** [arr[i] = v]: writing past the end grows the array, leaving holes. *)
Definition store (arr : list (slot A)) (i : nat) (v : slot A) : list (slot A) :=
  if decide (i < length arr) then <[i := v]> arr
  else arr ++ replicate (i - length arr) Undefined ++ [v].

(** [constructor(limit)].  The index arithmetic below is the one of
    JavaScript for [limit >= 1]; with [limit = 0] JavaScript computes
    NaN indices, which this model does not cover. *)
Definition new (limit : nat) : t A :=
  {| limit := limit; buf := replicate limit Null; head := 0; count := 0 |}.

Definition push (rb : t A) (item : A) : t A :=
  let buf' := store (buf rb) ((head rb + count rb) mod limit rb) (Item item) in
  if decide (count rb < limit rb)
  then {| limit := limit rb; buf := buf'; head := head rb; count := S (count rb) |}
  else {| limit := limit rb; buf := buf';
          head := (head rb + 1) mod limit rb; count := count rb |}.

(** The body of the [for] loop of [toArrayDesc]: [n] iterations are left,
    the loop variable is [i]. *)
Fixpoint toArrayDesc_loop (rb : t A) (n i : nat) (arr : list (slot A)) : list (slot A) :=
  match n with
  | O => arr
  | S n' =>
      let idx := (head rb + count rb - 1 - i + limit rb) mod limit rb in
      toArrayDesc_loop rb n' (S i) (arr ++ [load (buf rb) idx])
  end.

Definition toArrayDesc (rb : t A) : list (slot A) :=
  toArrayDesc_loop rb (count rb) 0 [].

(** A sequence of [push] calls. *)
Definition pushes (rb : t A) (items : list A) : t A :=
  foldl push rb items.

(** *** Representation invariant and abstraction *)

Record wf (rb : t A) : Prop := {
  wf_limit : 1 ≤ limit rb;
  wf_buf : length (buf rb) = limit rb;
  wf_head : head rb < limit rb;
  wf_count : count rb ≤ limit rb;
}.

(** The cells in use, oldest first. *)
Definition contents (rb : t A) : list (slot A) :=
  (λ j, load (buf rb) ((head rb + j) mod limit rb)) <$> seq 0 (count rb).

End ops.

End RingBuffer.

(** ** App.js: accumulator and pipeline coordinator *)

Module App.
Import JS.
Export RingBuffer(slot, Null, Undefined, Item).

Local Open Scope string_scope.
Local Open Scope list_scope.

(** The payload templates of [EVENT_POOL], by type. *)
Definition EVENT_POOL : list (string * Event.Payload) :=
  [ ("BALL", Event.mkPayload (VNum (Int 1)) None (Some "Pushed to mid-on for a quick single."));
    ("BOUNDARY", Event.mkPayload (VNum (Int 4)) None (Some "Classic cover drive, races to the boundary!"));
    ("WICKET", Event.mkPayload VUndefined None (Some "Big appeal... and he's out!"));
    ("MATCH_STATUS", Event.mkPayload VUndefined (Some "Innings Break") None);
    ("BALL", Event.mkPayload (VNum (Int 0)) None (Some "Solid defensive shot back to bowler."));
    ("BOUNDARY", Event.mkPayload (VNum (Int 6)) None (Some "Smashes it for six straight down the ground!")) ].

Record Summary : Type := mkSummary {
  runs : number;
  wickets : number;
  overs : number;
  balls : number;
}.

#[global] Instance Summary_eq_dec : EqDecision Summary.
Proof. solve_decision. Defined.

(** The event types with a case of their own in [applyEvent]. *)
Definition scoring (evt : Event.t) : Prop :=
  Event.type evt = "BALL" ∨ Event.type evt = "BOUNDARY" ∨ Event.type evt = "WICKET".

#[global] Instance scoring_dec evt : Decision (scoring evt).
Proof. unfold scoring. apply _. Defined.

(** How the [switch] of [applyEvent] is left: by [break] with the updated
    locals, by the [return summary] of the default case, or by the
    exception of [evt.payload.runs] on an absent payload. *)
Inductive switched : Type :=
| Break (runs wickets overs balls : number)
| Return (summary : Summary)
| Throw.

Definition applyEvent_switch (summary : Summary) (evt : Event.t) : switched :=
  let '(runs, wickets, overs, balls) :=
    (runs summary, wickets summary, overs summary, balls summary) in
  if decide (Event.type evt = "BALL" ∨ Event.type evt = "BOUNDARY") then
    match Event.payload evt with
    | None => Throw
    | Some payload =>
        let runs := add runs (Number (Event.runs payload)) in
        let balls := add balls (Int 1) in
        Break runs wickets overs balls
    end
  else if decide (Event.type evt = "WICKET") then
    let wickets := add wickets (Int 1) in
    let balls := add balls (Int 1) in
    Break runs wickets overs balls
  else Return summary.

(** The statements after the [switch]: over carry, then the three caps. *)
Definition applyEvent_tail (runs wickets overs balls : number) : Summary :=
  let '(overs, balls) :=
    if ge balls 6 then (add overs (floor_div balls 6), rem balls 6)
    else (overs, balls) in
  let wickets := if gt wickets 10 then Int 10 else wickets in
  let runs := if gt runs 300 then Int 300 else runs in
  let overs := if gt overs 50 then Int 50 else overs in
  {| runs := runs; wickets := wickets; overs := overs; balls := balls |}.

Definition applyEvent (summary : Summary) (evt : Event.t) : result Summary :=
  match applyEvent_switch summary evt with
  | Break runs wickets overs balls => Ok (applyEvent_tail runs wickets overs balls)
  | Return s => Ok s
  | Throw => TypeError
  end.

(** *** The component: refs, state hooks and the two intervals *)

(** [buffer] and [queueRef.current], mutated in place by the callbacks. *)
Record Refs : Type := mkRefs {
  buffer : RingBuffer.t Event.t;
  queueRef : list Event.t;
}.

(** The two [useState] cells, which are what the component renders. *)
Record View : Type := mkView {
  feed : list (slot Event.t);
  summary : Summary;
}.

(** A state update requested by a callback: [setSummary(s => applyEvent(s, e))]
    or [setFeed(arr)]. *)
Inductive Update : Type :=
| SetSummary (e : Event.t)
| SetFeed (arr : list (slot Event.t)).

Definition initialRefs : Refs :=
  {| buffer := RingBuffer.new 100; queueRef := [] |}.

Definition initialView : View :=
  {| feed := []; summary := mkSummary (Int 0) (Int 0) (Int 0) (Int 0) |}.

(** [queueRef.current.push(evt)] *)
Definition enqueue (r : Refs) (evt : Event.t) : Refs :=
  {| buffer := buffer r; queueRef := queueRef r ++ [evt] |}.

(** The producer interval: [i] is the index drawn from [Math.random()],
    which is always below [EVENT_POOL.length]. *)
Definition producerTick (r : Refs) (i : nat) (id timestamp : string) : Refs :=
  match EVENT_POOL !! i with
  | Some (type, payload) => enqueue r (Event.mk type (Some payload) id timestamp)
  | None => r
  end.

(** The [forEach] of the drain interval: one push and one requested
    update per event. *)
Definition drain_step (acc : RingBuffer.t Event.t * list Update) (e : Event.t)
  : RingBuffer.t Event.t * list Update :=
  (RingBuffer.push acc.1 e, acc.2 ++ [SetSummary e]).

(** The drain interval. *)
Definition drainTick (r : Refs) : Refs * list Update :=
  let '(q, rest) := splice (queueRef r) 0 in
  if decide (length q ≠ 0) then
    let '(b, ups) := foldl drain_step (buffer r, []) q in
    ({| buffer := b; queueRef := rest |}, ups ++ [SetFeed (RingBuffer.toArrayDesc b)])
  else ({| buffer := buffer r; queueRef := rest |}, []).

(** React applying the requested updates, in the order requested. *)
Definition commit_one (v : View) (u : Update) : result View :=
  match u with
  | SetSummary e =>
      bind (applyEvent (summary v) e) (λ s, Ok {| feed := feed v; summary := s |})
  | SetFeed arr => Ok {| feed := arr; summary := summary v |}
  end.

Definition commit (v : View) (ups : list Update) : result View :=
  foldM commit_one v ups.

(** A run of the component: producer and drain callbacks in any
    interleaving. *)
Inductive Action : Type :=
| Produce (evt : Event.t)
| Drain.

Definition step (st : Refs * result View) (a : Action) : Refs * result View :=
  match a with
  | Produce evt => (enqueue st.1 evt, st.2)
  | Drain =>
      let '(r, ups) := drainTick st.1 in
      (r, bind st.2 (λ v, commit v ups))
  end.

Definition run (st : Refs * result View) (acts : list Action) : Refs * result View :=
  foldl step st acts.

(** The events produced by a schedule, in order. *)
Definition produced (acts : list Action) : list Event.t :=
  omap (λ a, match a with Produce e => Some e | Drain => None end) acts.

(** The state of a run accounts for the events [evs] produced so far when
    the events already applied, followed by the ones still queued, are
    [evs] in order: the buffer has been pushed the applied ones in that
    order, and the views are the fold over them and the snapshot. *)
Definition tracks (st : Refs * result View) (evs : list Event.t) : Prop :=
  ∃ applied : list Event.t,
    applied ++ queueRef st.1 = evs ∧
    buffer st.1 = RingBuffer.pushes (RingBuffer.new 100) applied ∧
    st.2 = bind (foldM applyEvent (summary initialView) applied)
             (λ s, Ok {| feed := RingBuffer.toArrayDesc (buffer st.1); summary := s |}).

End App.

(** ** src/components/test.js: the reducer accumulator *)

Module Feed.
Import JS.

Local Open Scope string_scope.
Local Open Scope list_scope.

(** What [Date.now()] and [Math.floor(Math.random() * 1e6)] return during
    one call of [applyEvent]. *)
Record Env : Type := mkEnv {
  now : Z;
  random : Z;
}.

(** An element of [commentary]: the event spread into a new object with
    the stamps.  [_id] holds the two parts of the template string
    [`${timestamp}-${random}`]. *)
Record Entry : Type := mkEntry {
  event : Event.t;
  _id : Z * Z;
  _receivedAt : Z;
  displayRuns : option number;
  _unknown : bool;
}.

Record State : Type := mkState {
  totalRuns : number;
  wickets : number;
  balls : number;
  commentary : list Entry;
  matchStatus : string;
}.

Definition initialState : State :=
  {| totalRuns := Int 0; wickets := Int 0; balls := Int 0;
     commentary := []; matchStatus := "Live" |}.

(** [payload.status || 'Status Update']: an absent or empty status is
    falsy. *)
Definition status_or_default (o : option string) : string :=
  match o with
  | Some s => if decide (s = "") then "Status Update" else s
  | None => "Status Update"
  end.

(** The payload [applyEvent] works with: [payload = {}] by default. *)
Definition payload_of (event : Event.t) : Event.Payload :=
  default Event.empty (Event.payload event).

Definition addBall (s : State) : State :=
  {| totalRuns := totalRuns s; wickets := wickets s;
     balls := add (balls s) (Int 1);
     commentary := commentary s; matchStatus := matchStatus s |}.

Definition applyEvent (env : Env) (state : State) (event : Event.t) : State :=
  let type := Event.type event in
  let payload := payload_of event in
  let timestamp := now env in
  let id := (timestamp, random env) in
  let baseEvent := mkEntry event id timestamp in
  if decide (type = "BALL") then
    let runs := or_default (Number (Event.runs payload)) (Int 0) in
    let next :=
      {| totalRuns := add (totalRuns state) runs; wickets := wickets state;
         balls := balls state;
         commentary := baseEvent (Some runs) false :: commentary state;
         matchStatus := matchStatus state |} in
    addBall next
  else if decide (type = "BOUNDARY") then
    let runs := or_default (Number (Event.runs payload)) (Int 4) in
    let next :=
      {| totalRuns := add (totalRuns state) runs; wickets := wickets state;
         balls := balls state;
         commentary := baseEvent (Some runs) false :: commentary state;
         matchStatus := matchStatus state |} in
    addBall next
  else if decide (type = "WICKET") then
    let next :=
      {| totalRuns := totalRuns state; wickets := add (wickets state) (Int 1);
         balls := balls state;
         commentary := baseEvent None false :: commentary state;
         matchStatus := matchStatus state |} in
    addBall next
  else if decide (type = "MATCH_STATUS") then
    let status := status_or_default (Event.status payload) in
    let next :=
      {| totalRuns := totalRuns state; wickets := wickets state;
         balls := balls state;
         commentary := baseEvent None false :: commentary state;
         matchStatus := status |} in
    if includes (toLowerCase status) "new innings" then
      {| totalRuns := Int 0; wickets := Int 0; balls := Int 0;
         commentary := commentary next; matchStatus := matchStatus next |}
    else next
  else
    {| totalRuns := totalRuns state; wickets := wickets state;
       balls := balls state;
       commentary := baseEvent None true :: commentary state;
       matchStatus := matchStatus state |}.


(** The reducer's actions; [Other] is any unhandled action type. *)
Inductive action : Type :=
| PROCESS_EVENT (event : Event.t)
| RESET
| Other.

Definition reducer (env : Env) (state : State) (a : action) : State :=
  match a with
  | PROCESS_EVENT event => applyEvent env state event
  | RESET => initialState
  | Other => state
  end.

(** [formatOvers(balls)]: the two numbers of the template string
    [`${completedOvers}.${ballsInCurrent}`]. *)
Definition formatOvers (balls : number) : number * number :=
  let completedOvers := floor_div balls 6 in
  let ballsInCurrent := rem balls 6 in
  (completedOvers, ballsInCurrent).

End Feed.

(** ** The accumulator as the specification words it *)

Module Spec.
Import JS.

(** [while (balls >= 6) { overs += 1; balls -= 6 }] *)
Equations? over_carry_loop (overs : number) (balls : Z) : number * Z
  by wf (Z.to_nat balls) lt :=
  over_carry_loop overs balls with decide (6 ≤ balls)%Z => {
    | left _ => over_carry_loop (add overs (Int 1)) (balls - 6)%Z;
    | right _ => (overs, balls) }.
Proof. lia. Qed.

Definition over_carry (overs balls : number) : number * number :=
  match balls with
  | Int b => let '(o, b') := over_carry_loop overs b in (o, Int b')
  | NaN => (overs, NaN)
  end.

(** The saturating caps, in the stated order. *)
Definition clamp (s : App.Summary) : App.Summary :=
  let wickets := min (App.wickets s) (Int 10) in
  let runs := min (App.runs s) (Int 300) in
  let overs := min (App.overs s) (Int 50) in
  {| App.runs := runs; App.wickets := wickets; App.overs := overs;
     App.balls := App.balls s |}.

(** Over carry on the raw ball count, then the caps. *)
Definition carry_then_clamp (runs wickets overs balls : number) : App.Summary :=
  let '(overs', balls') := over_carry overs balls in
  clamp {| App.runs := runs; App.wickets := wickets; App.overs := overs';
           App.balls := balls' |}.

(** [status] contains the marker phrase, whatever the case of its letters:
    some substring of it lower-cases to the phrase. *)
Definition new_innings (status : string) : Prop :=
  ∃ pre mid post : string,
    status = pre +:+ mid +:+ post ∧ toLowerCase mid = "new innings"%string.

(** The bounds of a scoreboard summary. *)
Definition in_bounds (s : App.Summary) : Prop :=
  ∃ r w o b : Z,
    s = App.mkSummary (Int r) (Int w) (Int o) (Int b) ∧
    (0 ≤ b ≤ 5 ∧ 0 ≤ w ≤ 10 ∧ 0 ≤ r ≤ 300 ∧ 0 ≤ o ≤ 50)%Z.

End Spec.

(** ** Sample inputs *)

Module Samples.
Import JS.

Local Open Scope string_scope.

Definition event (type : string) (runs : value) (status : option string) : Event.t :=
  Event.mk type (Some (Event.mkPayload runs status None)) "id" "12:00:00".

Definition ball (runs : Z) : Event.t := event "BALL" (VNum (Int runs)) None.
Definition boundary (runs : Z) : Event.t := event "BOUNDARY" (VNum (Int runs)) None.
Definition wicket : Event.t := event "WICKET" VUndefined None.
Definition match_status (status : string) : Event.t :=
  event "MATCH_STATUS" VUndefined (Some status).
Definition unknown : Event.t := event "UNKNOWN_EVENT" VUndefined None.

(** [{ type: 'BALL', payload: {} }] and [{ type: 'BOUNDARY', payload: {} }] *)
Definition ball_without_runs : Event.t := event "BALL" VUndefined None.
Definition boundary_without_runs : Event.t := event "BOUNDARY" VUndefined None.

(** [{ type: 'BALL' }] *)
Definition ball_without_payload : Event.t := Event.mk "BALL" None "id" "12:00:00".

Definition summary (runs wickets overs balls : Z) : App.Summary :=
  App.mkSummary (Int runs) (Int wickets) (Int overs) (Int balls).

Definition zero : App.Summary := summary 0 0 0 0.

Definition env1 : Feed.Env := Feed.mkEnv 1700000000000 123456.
Definition env2 : Feed.Env := Feed.mkEnv 1700000002500 654321.

End Samples.

(** ** The streams that feed the two accumulators *)

Module Streams.
Import JS.

Local Open Scope string_scope.
Local Open Scope list_scope.

(** The condition under which an event is a well-formed delivery for the
    accumulator of App.js: a BALL or BOUNDARY event carries a payload whose
    [runs] coerces to a non-negative integer. *)
Definition numeric_runs (evt : Event.t) : Prop :=
  Event.type evt = "BALL" ∨ Event.type evt = "BOUNDARY" →
  ∃ payload k, Event.payload evt = Some payload ∧
               Number (Event.runs payload) = Int k ∧ (0 ≤ k)%Z.

(** *** App.js: the callbacks of the two intervals as they fire *)

Inductive Tick : Type :=
| ProducerTick (i : nat) (id timestamp : string)
| DrainTick.

(** The index of a producer tick is one [Math.floor(Math.random() * 6)] can
    give. *)
Definition drawn (t : Tick) : Prop :=
  match t with
  | ProducerTick i _ _ => (i < length App.EVENT_POOL)%nat
  | DrainTick => True
  end.

Definition tick (st : App.Refs * result App.View) (t : Tick) : App.Refs * result App.View :=
  match t with
  | ProducerTick i id timestamp => (App.producerTick st.1 i id timestamp, st.2)
  | DrainTick => App.step st App.Drain
  end.

Definition ticks (st : App.Refs * result App.View) (ts : list Tick) : App.Refs * result App.View :=
  foldl tick st ts.

(** *** src/api/mockStream.js *)

Definition EVENT_POOL : list (string * Event.Payload) :=
  [ ("BALL", Event.mkPayload (VNum (Int 1)) None (Some "Pushed to mid-on for a quick single."));
    ("BOUNDARY", Event.mkPayload (VNum (Int 4)) None (Some "Classic cover drive, races to the boundary!"));
    ("WICKET", Event.mkPayload VUndefined None (Some "Big appeal... and he's out!"));
    ("MATCH_STATUS", Event.mkPayload VUndefined (Some "Innings Break") None);
    ("BALL", Event.mkPayload (VNum (Int 0)) None (Some "Solid defensive shot back to bowler."));
    ("BOUNDARY", Event.mkPayload (VNum (Int 6)) None (Some "Smashes it for six straight down the ground!")) ].

(** One firing of the interval of [useMockStream]: the event built from the
    pool entry [i], with [Date.now().toString()] and the time string, is
    handed to [onEvent].  [i] is the index drawn from [Math.random()], which
    is always below [EVENT_POOL.length]. *)
Definition useMockStream {R : Type} (onEvent : Event.t → R → R)
    (i : nat) (id timestamp : string) (world : R) : R :=
  match EVENT_POOL !! i with
  | Some (type, payload) => onEvent (Event.mk type (Some payload) id timestamp) world
  | None => world
  end.

(** *** src/components/test.js: the simulated stream *)

Definition SAMPLE_EVENTS : list (string * Event.Payload) :=
  [ ("BALL", Event.mkPayload (VNum (Int 0)) None (Some "Pushed to mid-on for a dot."));
    ("BALL", Event.mkPayload (VNum (Int 1)) None (Some "Quick single to midwicket."));
    ("BOUNDARY", Event.mkPayload (VNum (Int 4)) None (Some "Classic cover drive, races to the boundary!"));
    ("BALL", Event.mkPayload (VNum (Int 2)) None (Some "Worked away to third man for a couple."));
    ("WICKET", Event.mkPayload VUndefined None (Some "Big appeal... and he's out!"));
    ("BOUNDARY", Event.mkPayload (VNum (Int 6)) None (Some "Huge hit! Clears the ropes!"));
    ("MATCH_STATUS", Event.mkPayload VUndefined (Some "Innings Break") None);
    ("UNKNOWN_EVENT", Event.mkPayload VUndefined None None) ].

(** The events of this file have no [id] and no [timestamp]; the two
    fields are left empty. *)
Definition plain (type : string) (payload : Event.Payload) : Event.t :=
  Event.mk type (Some payload) "" "".

(** [sampleEventGenerator(index)]: the deep copy is the value itself; an
    index past the end of an array reads [undefined], which
    [JSON.stringify] turns into a [SyntaxError] of [JSON.parse]. *)
Definition sampleEventGenerator (index : nat) : option Event.t :=
  match SAMPLE_EVENTS !! (index mod length SAMPLE_EVENTS) with
  | Some (type, payload) => Some (plain type payload)
  | None => None
  end.

(** [event.payload.runs = runs]; assigning into an absent payload raises. *)
Definition with_runs (event : Event.t) (runs : Z) : option Event.t :=
  match Event.payload event with
  | Some payload =>
      Some (Event.mk (Event.type event)
              (Some (Event.mkPayload (VNum (Int runs)) (Event.status payload)
                       (Event.commentary payload)))
              (Event.id event) (Event.timestamp event))
  | None => None
  end.

(** The random draws of one firing of the interval of [CommentaryFeed]:
    [Math.random() > 0.6], [Math.floor(Math.random() * 3)] and
    [Math.random() > 0.7]. *)
Record Draws : Type := mkDraws {
  above06 : bool;
  floor3 : Z;
  above07 : bool;
}.

(** The event the interval dispatches at tick [idx]; [None] stands for an
    exception. *)
Definition nextEvent (idx : nat) (d : Draws) : option Event.t :=
  match sampleEventGenerator idx with
  | None => None
  | Some nextEvent =>
      let afterBall :=
        if decide (Event.type nextEvent = "BALL") then
          if above06 d then with_runs nextEvent (floor3 d) else Some nextEvent
        else Some nextEvent in
      match afterBall with
      | None => None
      | Some nextEvent =>
          if decide (Event.type nextEvent = "BOUNDARY") then
            with_runs nextEvent (if above07 d then 6 else 4)
          else Some nextEvent
      end
  end.

(** A sequence of [dispatch({ type: 'PROCESS_EVENT', event })], each with
    the clock and random values its [applyEvent] sees. *)
Definition dispatch (state : Feed.State) (a : Feed.Env * Event.t) : Feed.State :=
  Feed.reducer a.1 state (Feed.PROCESS_EVENT a.2).

Definition dispatches (state : Feed.State) (l : list (Feed.Env * Event.t)) : Feed.State :=
  foldl dispatch state l.

(** A MATCH_STATUS event whose status carries the new-innings marker. *)
Definition resets (event : Event.t) : Prop :=
  Event.type event = "MATCH_STATUS" ∧
  Spec.new_innings (Feed.status_or_default (Event.status (Feed.payload_of event))).

(** An event on which the two accumulators are meant to agree: well formed
    for App.js, no new-innings reset, and a BOUNDARY that carries its own
    non-zero runs. *)
Definition plain_delivery (event : Event.t) : Prop :=
  numeric_runs event ∧
  ¬ resets event ∧
  (Event.type event = "BOUNDARY" →
   Number (Event.runs (Feed.payload_of event)) ≠ Int 0).

(** The summary App.js shows for raw totals: runs, wickets and deliveries. *)
Definition capped (R W B : Z) : App.Summary :=
  App.mkSummary (Int (Z.min R 300)) (Int (Z.min W 10))
    (Int (Z.min (B / 6) 50)) (Int (B mod 6)).

(** The sum of the [displayRuns] shown in a commentary. *)
Definition shown_runs (entries : list Feed.Entry) : number :=
  foldr (λ e acc, add acc (default (Int 0) (Feed.displayRuns e))) (Int 0) entries.

End Streams.

(** ** The cards *)

Module Cards.
Import JS.

Local Open Scope string_scope.

(** Which component [renderItem] of App.js picks. *)
Inductive Card : Type :=
| BallCard
| BoundaryCard
| WicketCard
| StatusCard
| UnknownCard.

Definition renderItem (item : Event.t) : Card :=
  if decide (Event.type item = "BALL") then BallCard
  else if decide (Event.type item = "BOUNDARY") then BoundaryCard
  else if decide (Event.type item = "WICKET") then WicketCard
  else if decide (Event.type item = "MATCH_STATUS") then StatusCard
  else UnknownCard.

(** The four event types both files know. *)
Definition known (type : string) : Prop :=
  type = "BALL" ∨ type = "BOUNDARY" ∨ type = "WICKET" ∨ type = "MATCH_STATUS".

(** Which view [EventCard] of test.js returns: the one for a flagged
    entry, one of the four cases of its [switch], or its [default]. *)
Inductive View : Type :=
| FlaggedUnknown
| Ball
| Boundary
| Wicket
| Status
| Default.

Definition EventCard (event : Feed.Entry) : View :=
  let type := Event.type (Feed.event event) in
  if Feed._unknown event then FlaggedUnknown
  else if decide (type = "BALL") then Ball
  else if decide (type = "BOUNDARY") then Boundary
  else if decide (type = "WICKET") then Wicket
  else if decide (type = "MATCH_STATUS") then Status
  else Default.

(** The view of test.js that corresponds to a card of App.js. *)
Definition view_of (c : Card) : View :=
  match c with
  | BallCard => Ball
  | BoundaryCard => Boundary
  | WicketCard => Wicket
  | StatusCard => Status
  | UnknownCard => FlaggedUnknown
  end.

End Cards.

(** ** Objects, clock, random numbers and console

    The two accumulators once more, now as programs over a world: a heap
    of objects addressed by reference, the values [Date.now()] and
    [Math.floor(Math.random() * 1e6)] will return, and what has been written
    to the console.  A program may read an object, allocate one, overwrite
    one, read the clock, draw a random number and warn. *)

Module Effects.
Import JS.

Local Open Scope string_scope.
Local Open Scope list_scope.

Inductive Obj : Type :=
| OSummary (s : App.Summary)
| OEvent (e : Event.t)
| OState (s : Feed.State).

Record World : Type := mkWorld {
  heap : list Obj;
  dateNow : nat → Z;
  mathRandom : nat → Z;
  nowCalls : nat;
  randomCalls : nat;
  console : list (string * string);
}.

Definition M (A : Type) : Type := World → result (A * World).

Definition ret {A : Type} (a : A) : M A := λ w, Ok (a, w).

Definition throw {A : Type} : M A := λ _, TypeError.

Definition and_then {A B : Type} (m : M A) (k : A → M B) : M B :=
  λ w, match m w with
       | Ok (a, w') => k a w'
       | TypeError => TypeError
       end.

Notation "'perform' x ':=' m 'in' k" := (and_then m (λ x, k))
  (at level 10, x name, m at level 100, k at level 200, only parsing).

(** Reading the fields of the object behind a reference. *)
Definition load (l : nat) : M Obj :=
  λ w, match heap w !! l with
       | Some o => Ok (o, w)
       | None => TypeError
       end.

(** An object literal: a new object at a new reference. *)
Definition alloc (o : Obj) : M nat :=
  λ w, Ok (length (heap w),
           mkWorld (heap w ++ [o]) (dateNow w) (mathRandom w)
             (nowCalls w) (randomCalls w) (console w)).

(** An assignment to a property of an existing object. *)
Definition store (l : nat) (o : Obj) : M unit :=
  λ w, if decide (l < length (heap w))
       then Ok (tt, mkWorld (<[l := o]> (heap w)) (dateNow w) (mathRandom w)
                      (nowCalls w) (randomCalls w) (console w))
       else TypeError.

(** [Date.now()] *)
Definition now : M Z :=
  λ w, Ok (dateNow w (nowCalls w),
           mkWorld (heap w) (dateNow w) (mathRandom w)
             (S (nowCalls w)) (randomCalls w) (console w)).

(** [Math.floor(Math.random() * 1e6)] *)
Definition random : M Z :=
  λ w, Ok (mathRandom w (randomCalls w),
           mkWorld (heap w) (dateNow w) (mathRandom w)
             (nowCalls w) (S (randomCalls w)) (console w)).

(** [console.warn(message, arg)] *)
Definition warn (message arg : string) : M unit :=
  λ w, Ok (tt, mkWorld (heap w) (dateNow w) (mathRandom w)
                 (nowCalls w) (randomCalls w) (console w ++ [(message, arg)])).


Definition load_event (l : nat) : M Event.t :=
  perform o := load l in match o with OEvent e => ret e | _ => throw end.

Definition load_state (l : nat) : M Feed.State :=
  perform o := load l in match o with OState s => ret s | _ => throw end.

(** *** App.js *)


(** *** src/components/test.js *)

#[global] Instance known_dec (type : string) : Decision (Cards.known type).
Proof. unfold Cards.known. apply _. Defined.

(** [applyEvent(state, event)]: the clock and the random number are read
    first, the default case of the [switch] warns, and every case builds a
    new state object by spreading the old one. *)
Definition Feed_applyEvent (state event : nat) : M nat :=
  perform e := load_event event in
  perform timestamp := now in
  perform r := random in
  perform _ := (if decide (Cards.known (Event.type e)) then ret tt
        else warn "Unknown event type received:" (Event.type e)) in
  perform st := load_state state in
  alloc (OState (Feed.applyEvent (Feed.mkEnv timestamp r) st e)).

(** The actions of [reducer], with the event by reference. *)
Inductive action : Type :=
| PROCESS_EVENT (event : nat)
| RESET
| Unhandled (type : string).

Definition reducer (state : nat) (a : action) : M nat :=
  match a with
  | PROCESS_EVENT event => Feed_applyEvent state event
  | RESET => alloc (OState Feed.initialState)
  | Unhandled type =>
      perform _ := warn "Unhandled reducer action:" type in ret state
  end.

(** [sampleEventGenerator(index)]: [JSON.parse(JSON.stringify(base))] makes
    a new object. *)
Definition sampleEventGenerator (index : nat) : M nat :=
  match Streams.sampleEventGenerator index with
  | Some e => alloc (OEvent e)
  | None => throw
  end.

(** [nextEvent.payload.runs = runs] *)
Definition set_runs (nextEvent : nat) (runs : Z) : M unit :=
  perform e := load_event nextEvent in
  match Streams.with_runs e runs with
  | Some e' => store nextEvent (OEvent e')
  | None => throw
  end.

(** One firing of the interval of [CommentaryFeed] at tick [idx]: the copy
    of the sample is overwritten in place, then dispatched. *)
Definition interval (state : nat) (idx : nat) (d : Streams.Draws) : M nat :=
  perform nextEvent := sampleEventGenerator idx in
  perform e := load_event nextEvent in
  perform _ := (if decide (Event.type e = "BALL") then
          if Streams.above06 d then set_runs nextEvent (Streams.floor3 d) else ret tt
        else ret tt) in
  perform e := load_event nextEvent in
  perform _ := (if decide (Event.type e = "BOUNDARY") then
          set_runs nextEvent (if Streams.above07 d then 6%Z else 4%Z)
        else ret tt) in
  reducer state (PROCESS_EVENT nextEvent).

(** *** What can be observed of a run *)


(** The result and the heap of a run, without clock, random numbers and
    console. *)
Definition outcome {A : Type} (r : result (A * World)) : result (A * list Obj) :=
  match r with
  | Ok (a, w) => Ok (a, heap w)
  | TypeError => TypeError
  end.


(** Sample worlds: a state and an event on the heap, two clocks. *)
Definition world (event : Event.t) (env : Feed.Env) : World :=
  mkWorld [OState Feed.initialState; OSummary Samples.zero; OEvent event]
    (λ _, Feed.now env) (λ _, Feed.random env) 0 0 [].

End Effects.

(** * Properties *)

(** ** Ring buffer *)

Module RingBufferFacts.
Import RingBuffer.

Section facts.
Context {A : Type}.
Implicit Types (rb : t A) (arr : list (slot A)) (x : A) (items : list A).

(** Indices stay below twice the limit, so [mod] wraps at most once. *)
Lemma mod_wrap (a n : nat) :
  1 ≤ n → a < 2 * n → a mod n = if decide (a < n) then a else a - n.
Proof.
  intros Hn Ha. case_decide as Hlt.
  - by apply Nat.mod_small.
  - symmetry. apply (Nat.mod_unique a n 1); lia.
Qed.

Lemma load_store_eq arr i v : i < length arr → load (store arr i v) i = v.
Proof.
  intros Hi. unfold load, store. rewrite decide_True by done.
  by rewrite list_lookup_insert_eq.
Qed.

Lemma load_store_ne arr i j v :
  i < length arr → i ≠ j → load (store arr i v) j = load arr j.
Proof.
  intros Hi Hne. unfold load, store. rewrite decide_True by done.
  by rewrite list_lookup_insert_ne.
Qed.

Lemma length_store arr i v : i < length arr → length (store arr i v) = length arr.
Proof.
  intros Hi. unfold store. rewrite decide_True by done. apply length_insert.
Qed.

Lemma length_contents rb : length (contents rb) = count rb.
Proof. unfold contents. by rewrite length_fmap, length_seq. Qed.

Lemma contents_lookup rb j :
  j < count rb →
  contents rb !! j = Some (load (buf rb) ((head rb + j) mod limit rb)).
Proof.
  intros Hj. unfold contents.
  by rewrite list_lookup_fmap, lookup_seq_lt.
Qed.

Lemma new_wf (N : nat) : 1 ≤ N → wf (new (A:=A) N).
Proof.
  intros HN. split; simpl; try lia. apply length_replicate.
Qed.

Lemma push_wf rb x : wf rb → wf (push rb x).
Proof.
  intros [HL Hb Hh Hc]. unfold push.
  assert ((head rb + count rb) mod limit rb < length (buf rb)) as Hidx.
  { rewrite Hb. apply Nat.mod_upper_bound. lia. }
  case_decide; split; simpl; rewrite ?length_store by done; try lia.
  apply Nat.mod_upper_bound. lia.
Qed.

Lemma pushes_wf rb items : wf rb → wf (pushes rb items).
Proof.
  revert rb. induction items as [|x items IH]; intros rb Hwf; simpl; [done|].
  apply IH, push_wf, Hwf.
Qed.

Lemma limit_push rb x : limit (push rb x) = limit rb.
Proof. unfold push. by case_decide. Qed.

Lemma limit_pushes rb items : limit (pushes rb items) = limit rb.
Proof.
  unfold pushes. revert rb.
  induction items as [|x items IH]; intros rb; simpl; [done|].
  by rewrite IH, limit_push.
Qed.

(** The loop of [toArrayDesc] appends one cell per index. *)
Lemma toArrayDesc_loop_fmap rb n i arr :
  toArrayDesc_loop rb n i arr =
  arr ++ ((λ k, load (buf rb)
                  ((head rb + count rb - 1 - k + limit rb) mod limit rb))
          <$> seq i n).
Proof.
  revert i arr. induction n as [|n IH]; intros i arr; simpl.
  - by rewrite app_nil_r.
  - rewrite IH. by rewrite <- app_assoc.
Qed.

(** [toArrayDesc] reads the cells in use from the newest to the oldest. *)
Lemma toArrayDesc_contents rb : wf rb → toArrayDesc rb = reverse (contents rb).
Proof.
  intros [HL Hb Hh Hc]. unfold toArrayDesc.
  rewrite toArrayDesc_loop_fmap. simpl.
  apply list_eq. intros i.
  destruct (decide (i < count rb)) as [Hi|Hi].
  - rewrite list_lookup_fmap, lookup_seq_lt by done. simpl.
    rewrite reverse_lookup by (rewrite length_contents; done).
    rewrite length_contents, contents_lookup by lia.
    do 2 f_equal.
    replace (head rb + count rb - 1 - i + limit rb)
      with (head rb + (count rb - S i) + 1 * limit rb) by lia.
    by rewrite Nat.Div0.mod_add.
  - rewrite list_lookup_fmap, lookup_seq_ge by lia. simpl.
    symmetry. apply lookup_ge_None_2.
    rewrite length_reverse, length_contents. lia.
Qed.

(** One push: the new item becomes the newest; on a full buffer the oldest
    cell in use is the one overwritten. *)
Lemma contents_push rb x :
  wf rb →
  contents (push rb x) =
  (if decide (count rb < limit rb) then contents rb else drop 1 (contents rb))
  ++ [Item x].
Proof.
  intros [HL Hb Hh Hc].
  assert ((head rb + count rb) mod limit rb < length (buf rb)) as Hidx.
  { rewrite Hb. apply Nat.mod_upper_bound. lia. }
  apply list_eq. intros i. unfold push.
  case_decide as Hfull.
  - (* room left *)
    destruct (decide (i < count rb)) as [Hi|Hi].
    + rewrite lookup_app_l by (rewrite length_contents; done).
      rewrite !contents_lookup by (simpl; lia). simpl.
      rewrite load_store_ne; [done|done|].
      rewrite !mod_wrap by lia. repeat case_decide; lia.
    + destruct (decide (i = count rb)) as [->|Hne].
      * rewrite contents_lookup by (simpl; lia). simpl.
        rewrite load_store_eq by done.
        rewrite lookup_app_r by (rewrite length_contents; done).
        by rewrite length_contents, Nat.sub_diag.
      * rewrite !lookup_ge_None_2; [done| |].
        -- rewrite length_app, length_contents. simpl. lia.
        -- rewrite length_contents. simpl. lia.
  - (* full: count = limit *)
    assert (count rb = limit rb) as Hcl by lia.
    destruct (decide (i < limit rb - 1)) as [Hi|Hi].
    + rewrite lookup_app_l by (rewrite length_drop, length_contents; lia).
      rewrite lookup_drop.
      rewrite !contents_lookup by (simpl; lia). simpl.
      rewrite load_store_ne; [|done|].
      * do 2 f_equal. rewrite !mod_wrap by (try rewrite mod_wrap; try case_decide; lia).
        repeat case_decide; lia.
      * rewrite !mod_wrap by (try rewrite mod_wrap; try case_decide; lia).
        repeat case_decide; lia.
    + destruct (decide (i = limit rb - 1)) as [->|Hne].
      * rewrite contents_lookup by (simpl; lia). simpl.
        rewrite lookup_app_r by (rewrite length_drop, length_contents; lia).
        rewrite length_drop, length_contents.
        replace (limit rb - 1 - (count rb - 1)) with 0 by lia. simpl.
        replace (((head rb + 1) mod limit rb + (limit rb - 1)) mod limit rb)
          with ((head rb + count rb) mod limit rb).
        { by rewrite load_store_eq. }
        rewrite !mod_wrap by (try rewrite mod_wrap; try case_decide; lia).
        repeat case_decide; lia.
      * rewrite !lookup_ge_None_2; [done| |].
        -- rewrite length_app, length_drop, length_contents. simpl. lia.
        -- rewrite length_contents. simpl. lia.
Qed.

(** After any sequence of pushes into a fresh buffer, the cells in use are
    the last [N] items pushed, oldest first. *)
Lemma contents_pushes (N : nat) items :
  1 ≤ N →
  contents (pushes (new N) items) = Item <$> drop (length items - N) items.
Proof.
  intros HN. induction items as [|x items IH] using rev_ind; [done|].
  unfold pushes in *. rewrite foldl_snoc.
  pose proof (pushes_wf (new N) items (new_wf N HN)) as Hwf.
  pose proof (limit_pushes (new N) items) as Hlim. simpl in Hlim.
  unfold pushes in Hwf, Hlim.
  rewrite contents_push by done. rewrite Hlim.
  pose proof (length_contents (foldl push (new N) items)) as Hlen.
  rewrite IH, length_fmap, length_drop in Hlen.
  rewrite IH, length_app. simpl.
  case_decide.
  - replace (length items + 1 - N) with 0 by lia.
    replace (length items - N) with 0 by lia.
    rewrite !drop_0. by rewrite fmap_app.
  - rewrite drop_app_le by lia. rewrite fmap_app. simpl.
    rewrite <- fmap_drop, drop_drop.
    do 3 f_equal. lia.
Qed.

Lemma count_pushes (N : nat) items :
  1 ≤ N → count (pushes (new N) items) = length items `min` N.
Proof.
  intros HN. rewrite <- length_contents, contents_pushes by done.
  rewrite length_fmap, length_drop. lia.
Qed.

Lemma toArrayDesc_pushes (N : nat) items :
  1 ≤ N →
  toArrayDesc (pushes (new N) items) = Item <$> take N (reverse items).
Proof.
  intros HN.
  rewrite toArrayDesc_contents by (apply pushes_wf, new_wf, HN).
  rewrite contents_pushes by done.
  rewrite <- fmap_reverse, reverse_drop. f_equal.
  destruct (decide (N ≤ length items)).
  - f_equal. lia.
  - rewrite !take_ge; [done| |]; rewrite length_reverse; lia.
Qed.

End facts.

(** A buffer of three cells that has wrapped around twice. *)
Example wrapped_around :
  let rb := pushes (new 3) [1; 2; 3; 4; 5; 6; 7] in
  (head rb, count rb, buf rb, toArrayDesc rb)
  = (1, 3, [Item 7; Item 5; Item 6], [Item 7; Item 6; Item 5]).
Proof. reflexivity. Qed.

Example not_yet_full :
  toArrayDesc (pushes (new 4) [1; 2]) = [Item 2; Item 1].
Proof. reflexivity. Qed.

(** C1: for every capacity [N >= 1] and every sequence of [push] calls on a
    fresh buffer of capacity [N], the buffer never holds more than [N]
    events ([count <= N], and the storage keeps its [N] cells), and
    [toArrayDesc] returns exactly the cells in use, most recent insert
    first: the last [N] items pushed, in reverse insertion order. *)
Theorem ring_buffer_bounded_newest_first {A : Type} (N : nat) (items : list A) :
  1 ≤ N →
  let rb := pushes (new N) items in
  count rb ≤ N ∧
  length (buf rb) = N ∧
  length (toArrayDesc rb) = count rb ∧
  toArrayDesc rb = reverse (contents rb) ∧
  toArrayDesc rb = Item <$> take N (reverse items).
Proof.
  intros HN rb.
  pose proof (pushes_wf (new N) items (new_wf N HN)) as Hwf.
  pose proof (limit_pushes (new (A:=A) N) items) as Hlim. simpl in Hlim.
  fold rb in Hwf, Hlim. destruct Hwf as [HL Hb Hh Hc].
  assert (toArrayDesc rb = reverse (contents rb)) as Hdesc.
  { apply toArrayDesc_contents. by split. }
  repeat split.
  - lia.
  - lia.
  - by rewrite Hdesc, length_reverse, length_contents.
  - done.
  - by apply toArrayDesc_pushes.
Qed.

Lemma ring_buffer_bounded_newest_first_witness :
  1 ≤ 2 ∧
  let rb := pushes (new 2) [10; 20; 30] in
  count rb ≤ 2 ∧
  length (buf rb) = 2 ∧
  length (toArrayDesc rb) = count rb ∧
  toArrayDesc rb = reverse (contents rb) ∧
  toArrayDesc rb = Item <$> take 2 (reverse [10; 20; 30]).
Proof.
  split; [lia|]. apply (ring_buffer_bounded_newest_first 2 [10; 20; 30]). lia.
Defined.

(** C6: for every capacity [N >= 1] and [k >= 1], pushing [N + k] events
    into a fresh buffer of capacity [N] leaves exactly the last [N] pushed
    events (the first [k] are gone), and every further push evicts the
    oldest event held: the snapshot gains the new item in front and loses
    its last element. *)
Theorem ring_buffer_keeps_last_N {A : Type} (N k : nat) (items : list A) :
  1 ≤ N → 1 ≤ k → length items = N + k →
  let rb := pushes (new N) items in
  count rb = N ∧
  contents rb = Item <$> drop k items ∧
  toArrayDesc rb = Item <$> reverse (drop k items) ∧
  (∀ x, toArrayDesc (push rb x) = Item x :: take (N - 1) (toArrayDesc rb)).
Proof.
  intros HN Hk Hlen rb. subst rb. repeat split.
  - rewrite count_pushes by done. lia.
  - rewrite contents_pushes by done. do 2 f_equal. lia.
  - rewrite toArrayDesc_pushes by done. f_equal.
    rewrite take_reverse. do 2 f_equal. lia.
  - intros x.
    pose proof (toArrayDesc_pushes N (items ++ [x]) HN) as Hnew.
    unfold pushes in Hnew. rewrite foldl_snoc in Hnew.
    fold (pushes (new N) items) in Hnew. rewrite Hnew.
    rewrite (toArrayDesc_pushes N items HN).
    rewrite reverse_snoc.
    destruct N as [|N]; [lia|]. simpl.
    rewrite Nat.sub_0_r, <- fmap_take, take_take. do 3 f_equal. lia.
Qed.

Lemma ring_buffer_keeps_last_N_witness :
  (1 ≤ 2 ∧ 1 ≤ 3 ∧ length [1; 2; 3; 4; 5] = 2 + 3) ∧
  let rb := pushes (new 2) [1; 2; 3; 4; 5] in
  count rb = 2 ∧
  contents rb = Item <$> drop 3 [1; 2; 3; 4; 5] ∧
  toArrayDesc rb = Item <$> reverse (drop 3 [1; 2; 3; 4; 5]) ∧
  (∀ x, toArrayDesc (push rb x) = Item x :: take (2 - 1) (toArrayDesc rb)).
Proof.
  split; [repeat split; simpl; lia|].
  apply (ring_buffer_keeps_last_N 2 3 [1; 2; 3; 4; 5]); simpl; lia.
Defined.

End RingBufferFacts.

(** ** The accumulator of App.js *)

Module AppFacts.
Import JS App.

Local Open Scope string_scope.
Local Open Scope list_scope.
Local Open Scope Z_scope.

(** Case analysis on what a number is, then arithmetic. *)
Ltac number_cases :=
  repeat match goal with
         | n : number |- _ => destruct n
         end;
  simpl in *.

Lemma add_assoc_int (a : number) (x y : Z) :
  add (add a (Int x)) (Int y) = add a (Int (x + y)).
Proof. destruct a; simpl; [f_equal; lia | done]. Qed.

(** The loop of the specification, in closed form. *)
Lemma over_carry_loop_closed (o : number) (b : Z) :
  Spec.over_carry_loop o b =
  if decide (6 ≤ b) then (add o (Int (b / 6)), Z.rem b 6) else (o, b).
Proof.
  funelim (Spec.over_carry_loop o b).
  - match goal with Hge : 6 ≤ ?x |- _ => rename x into b end.
    match goal with
    | Hc : Spec.over_carry_loop _ _ = Spec.over_carry_loop _ _ |- _ => clear Hc
    end.
    match goal with He : decide _ = _ |- _ => clear He end.
    match goal with IH : Spec.over_carry_loop _ _ = _ |- _ => rewrite IH end.
    rewrite (decide_True (P:=6 ≤ b)) by done.
    destruct (decide (6 ≤ b - 6)) as [Hnext|Hnext].
    + rewrite add_assoc_int. f_equal.
      * do 2 f_equal. rewrite <- (Z.div_add_l 1 6 (b - 6)) by lia.
        f_equal. lia.
      * rewrite !Z.rem_mod_nonneg by lia.
        rewrite <- (Z.mod_add (b - 6) 1 6) by lia. f_equal. lia.
    + f_equal.
      * do 2 f_equal. apply (Z.div_unique b 6 1 (b - 6)); lia.
      * rewrite Z.rem_mod_nonneg by lia.
        apply (Z.mod_unique b 6 1 (b - 6)); lia.
  - by rewrite decide_False by done.
Qed.

(** The [if] with [Math.floor] and [%] computes what the loop computes. *)
Lemma over_carry_code (overs balls : number) :
  (if ge balls 6 then (add overs (floor_div balls 6), rem balls 6)
   else (overs, balls))
  = Spec.over_carry overs balls.
Proof.
  destruct balls as [b|]; simpl; [|done].
  rewrite over_carry_loop_closed.
  destruct (Z.leb_spec 6 b); case_decide; try lia; done.
Qed.

(** Each guarded assignment is a saturating minimum. *)
Lemma cap_min (a : number) (k : Z) :
  (if gt a k then Int k else a) = min a (Int k).
Proof.
  destruct a as [x|]; simpl; [|done].
  destruct (Z.ltb_spec k x); f_equal; lia.
Qed.

Lemma applyEvent_tail_spec (runs wickets overs balls : number) :
  applyEvent_tail runs wickets overs balls =
  Spec.carry_then_clamp runs wickets overs balls.
Proof.
  unfold applyEvent_tail, Spec.carry_then_clamp, Spec.clamp.
  rewrite over_carry_code.
  destruct (Spec.over_carry overs balls) as [o b]. simpl.
  by rewrite !cap_min.
Qed.

Lemma clamp_idempotent (s : Summary) : Spec.clamp (Spec.clamp s) = Spec.clamp s.
Proof.
  destruct s as [r w o b]. unfold Spec.clamp. simpl.
  f_equal; number_cases; f_equal; lia.
Qed.

Lemma applyEvent_ball (summary : Summary) (evt : Event.t) :
  Event.type evt = "BALL" ∨ Event.type evt = "BOUNDARY" →
  applyEvent summary evt =
  match Event.payload evt with
  | Some payload =>
      Ok (applyEvent_tail (add (runs summary) (Number (Event.runs payload)))
            (wickets summary) (overs summary) (add (balls summary) (Int 1)))
  | None => TypeError
  end.
Proof.
  intros Hty. unfold applyEvent, applyEvent_switch.
  rewrite decide_True by done. by destruct (Event.payload evt).
Qed.

Lemma applyEvent_wicket (summary : Summary) (evt : Event.t) :
  Event.type evt = "WICKET" →
  applyEvent summary evt =
  Ok (applyEvent_tail (runs summary) (add (wickets summary) (Int 1))
        (overs summary) (add (balls summary) (Int 1))).
Proof.
  intros Hty. unfold applyEvent, applyEvent_switch.
  rewrite decide_False by (rewrite Hty; intros [?|?]; discriminate).
  by rewrite decide_True by done.
Qed.

Lemma applyEvent_other (summary : Summary) (evt : Event.t) :
  ¬ scoring evt → applyEvent summary evt = Ok summary.
Proof.
  intros Hty. unfold scoring in Hty. unfold applyEvent, applyEvent_switch.
  rewrite decide_False by tauto. by rewrite decide_False by tauto.
Qed.

(** C2, as stated, fails: [applyEvent] reads [evt.payload.runs] before the
    carry and the caps, so a BALL event without a payload object raises
    and no summary, carried or capped, comes back. *)
Lemma carry_then_clamp_counterexample :
  Event.type Samples.ball_without_payload = "BALL" ∧
  applyEvent Samples.zero Samples.ball_without_payload = TypeError ∧
  ∀ runs wickets overs balls,
    applyEvent Samples.zero Samples.ball_without_payload ≠
    Ok (Spec.carry_then_clamp runs wickets overs balls).
Proof. split; [reflexivity|]. split; [reflexivity|]. intros r w o b H. discriminate H. Qed.

(** C2, amended: for every summary, every WICKET event and every BALL or
    BOUNDARY event that has a payload object, [applyEvent] applies the over
    carry (the loop [while balls >= 6]) to the raw incremented ball count
    and then the caps [min(wickets, 10)], [min(runs, 300)],
    [min(overs, 50)]; an event of any other type is handed back the
    summary unchanged, and capping twice is capping once. *)
Theorem applyEvent_carry_then_clamp (summary : Summary) (evt : Event.t) :
  (Event.type evt = "BALL" ∨ Event.type evt = "BOUNDARY" →
   ∀ payload, Event.payload evt = Some payload →
   applyEvent summary evt =
   Ok (Spec.carry_then_clamp
         (add (runs summary) (Number (Event.runs payload)))
         (wickets summary) (overs summary) (add (balls summary) (Int 1)))) ∧
  (Event.type evt = "WICKET" →
   applyEvent summary evt =
   Ok (Spec.carry_then_clamp (runs summary) (add (wickets summary) (Int 1))
         (overs summary) (add (balls summary) (Int 1)))) ∧
  (¬ scoring evt → applyEvent summary evt = Ok summary) ∧
  Spec.clamp (Spec.clamp summary) = Spec.clamp summary.
Proof.
  split_and!.
  - intros Hty payload Hp. rewrite applyEvent_ball, Hp by done.
    by rewrite applyEvent_tail_spec.
  - intros Hty. rewrite applyEvent_wicket by done.
    by rewrite applyEvent_tail_spec.
  - apply applyEvent_other.
  - apply clamp_idempotent.
Qed.

Lemma applyEvent_carry_then_clamp_witness :
  applyEvent (Samples.summary 299 10 49 5) (Samples.boundary 6) =
  Ok (Spec.carry_then_clamp (add (Int 299) (Number (VNum (Int 6)))) (Int 10)
        (Int 49) (add (Int 5) (Int 1))) ∧
  applyEvent (Samples.summary 299 10 49 5) Samples.wicket =
  Ok (Spec.carry_then_clamp (Int 299) (add (Int 10) (Int 1)) (Int 49)
        (add (Int 5) (Int 1))).
Proof.
  split.
  - apply (proj1 (applyEvent_carry_then_clamp
                    (Samples.summary 299 10 49 5) (Samples.boundary 6))
             (or_intror eq_refl) (Event.mkPayload (VNum (Int 6)) None None)).
    reflexivity.
  - apply (proj1 (proj2 (applyEvent_carry_then_clamp
                           (Samples.summary 299 10 49 5) Samples.wicket))).
    reflexivity.
Defined.

(** Six singles from the zero summary make one over. *)
Example six_singles :
  foldM applyEvent Samples.zero (replicate 6 (Samples.ball 1)) =
  Ok (Samples.summary 6 0 1 0).
Proof. reflexivity. Qed.

Example wicket_leaves_runs :
  applyEvent (Samples.summary 42 3 7 2) Samples.wicket =
  Ok (Samples.summary 42 4 7 3).
Proof. reflexivity. Qed.

Example saturation :
  applyEvent (Samples.summary 299 10 50 5) (Samples.boundary 6) =
  Ok (Samples.summary 300 10 50 0).
Proof. reflexivity. Qed.

(** The tail keeps integer locals inside the scoreboard bounds. *)
Lemma applyEvent_tail_bounds (r w o b : Z) :
  0 ≤ r → 0 ≤ w → 0 ≤ o ≤ 50 → 0 ≤ b ≤ 6 →
  Spec.in_bounds (applyEvent_tail (Int r) (Int w) (Int o) (Int b)).
Proof.
  intros Hr Hw Ho Hb. unfold applyEvent_tail, Spec.in_bounds. simpl.
  destruct (Z.leb_spec 6 b) as [Hb6|Hb6].
  - assert (b = 6) as -> by lia.
    change (6 `div` 6) with 1. change (6 `rem` 6) with 0. simpl.
    destruct (Z.ltb_spec 10 w), (Z.ltb_spec 300 r), (Z.ltb_spec 50 (o + 1));
      eexists _, _, _, _; (split; [reflexivity | lia]).
  - simpl.
    destruct (Z.ltb_spec 10 w), (Z.ltb_spec 300 r), (Z.ltb_spec 50 o);
      eexists _, _, _, _; (split; [reflexivity | lia]).
Qed.

(** C3, as stated, fails: a summary outside the bounds passes unchanged
    through an event of a non-scoring type, and a BALL event whose payload
    has no [runs] turns the runs of the zero summary into NaN. *)
Lemma fold_bounds_counterexample :
  (applyEvent (Samples.summary 500 0 0 0) (Samples.match_status "Innings Break")
   = Ok (Samples.summary 500 0 0 0) ∧
   ¬ Spec.in_bounds (Samples.summary 500 0 0 0)) ∧
  (applyEvent Samples.zero Samples.ball_without_runs
   = Ok (mkSummary NaN (Int 0) (Int 0) (Int 1)) ∧
   ¬ Spec.in_bounds (mkSummary NaN (Int 0) (Int 0) (Int 1))).
Proof.
  repeat split.
  - intros (r & w & o & b & Heq & Hb). injection Heq as <- <- <- <-. lia.
  - intros (r & w & o & b & Heq & Hb). discriminate Heq.
Qed.

(** C3, amended: for every summary inside the bounds and every event whose
    [payload.runs], when the type is BALL or BOUNDARY, is a number that is a
    non-negative integer, [applyEvent] returns a summary inside the bounds
    [0 <= balls <= 5], [0 <= wickets <= 10], [0 <= runs <= 300],
    [0 <= overs <= 50]. *)
Theorem fold_preserves_bounds (summary : Summary) (evt : Event.t) :
  Spec.in_bounds summary →
  (Event.type evt = "BALL" ∨ Event.type evt = "BOUNDARY" →
   ∃ payload k, Event.payload evt = Some payload ∧
                Number (Event.runs payload) = Int k ∧ 0 ≤ k) →
  ∃ summary', applyEvent summary evt = Ok summary' ∧ Spec.in_bounds summary'.
Proof.
  intros (r & w & o & b & -> & Hb) Hruns.
  destruct (decide (Event.type evt = "BALL" ∨ Event.type evt = "BOUNDARY"))
    as [Hball|Hnball].
  - destruct (Hruns Hball) as (payload & k & Hp & Hk & Hk0).
    rewrite applyEvent_ball, Hp by done. simpl. rewrite Hk. simpl.
    eexists. split; [done|]. apply applyEvent_tail_bounds; lia.
  - destruct (decide (Event.type evt = "WICKET")) as [Hw|Hnw].
    + rewrite applyEvent_wicket by done. simpl.
      eexists. split; [done|]. apply applyEvent_tail_bounds; lia.
    + rewrite applyEvent_other by (unfold scoring; tauto).
      eexists. split; [done|]. by exists r, w, o, b.
Qed.

Lemma fold_preserves_bounds_witness :
  ∃ summary',
    applyEvent (Samples.summary 298 9 49 5) (Samples.boundary 6) = Ok summary' ∧
    Spec.in_bounds summary'.
Proof.
  apply (fold_preserves_bounds (Samples.summary 298 9 49 5) (Samples.boundary 6)).
  - exists 298, 9, 49, 5. split; [reflexivity | lia].
  - intros _. eexists _, 6. split; [reflexivity|]. split; [reflexivity | lia].
Defined.

End AppFacts.

(** ** Strings *)

Module StringFacts.
Import JS.

Lemma append_cons (c : ascii) (a b : string) :
  String c a +:+ b = String c (a +:+ b).
Proof. reflexivity. Qed.

Lemma append_nil (b : string) : "" +:+ b = b.
Proof. reflexivity. Qed.

Lemma prefix_app (pat s : string) :
  String.prefix pat s = true ↔ ∃ post, s = pat +:+ post.
Proof.
  revert s. induction pat as [|c pat IH]; intros s.
  - split; [intros _; by exists s | by destruct s].
  - destruct s as [|d s]; simpl.
    + split; [done | intros [post Hpost]; by rewrite append_cons in Hpost].
    + destruct (Ascii.ascii_dec c d) as [->|Hne].
      * rewrite IH. split; intros [post Hpost]; exists post.
        -- by rewrite append_cons, Hpost.
        -- rewrite append_cons in Hpost. by injection Hpost.
      * split; [done | intros [post Hpost]].
        rewrite append_cons in Hpost. congruence.
Qed.

Lemma includes_unfold (s pat : string) :
  includes s pat =
  if String.prefix pat s then true
  else match s with
       | EmptyString => false
       | String _ s' => includes s' pat
       end.
Proof. by destruct s. Qed.

Lemma includes_app (s pat : string) :
  includes s pat = true ↔ ∃ pre post, s = pre +:+ pat +:+ post.
Proof.
  induction s as [|c s IH]; rewrite includes_unfold.
  - destruct (String.prefix pat "") eqn:Hp.
    + split; [intros _ | done].
      apply prefix_app in Hp as [post Hpost]. by exists ""%string, post.
    + split; [done | intros (pre & post & Heq)].
      destruct pre; [|by rewrite append_cons in Heq].
      rewrite append_nil in Heq.
      assert (String.prefix pat "" = true) as Hp'
        by (apply prefix_app; by exists post).
      congruence.
  - destruct (String.prefix pat (String c s)) eqn:Hp.
    + split; [intros _ | done].
      apply prefix_app in Hp as [post Hpost]. by exists ""%string, post.
    + rewrite IH. split.
      * intros (pre & post & ->). by exists (String c pre), post.
      * intros (pre & post & Heq). destruct pre as [|d pre].
        -- rewrite append_nil in Heq.
           assert (String.prefix pat (String c s) = true) as Hp'
             by (apply prefix_app; by exists post).
           congruence.
        -- rewrite append_cons in Heq. injection Heq as _ ->. by exists pre, post.
Qed.

Lemma toLowerCase_app (a b : string) :
  toLowerCase (a +:+ b) = toLowerCase a +:+ toLowerCase b.
Proof.
  induction a as [|c a IH]; [done|].
  rewrite append_cons. simpl. by rewrite append_cons, IH.
Qed.

Lemma toLowerCase_split (s x y : string) :
  toLowerCase s = x +:+ y →
  ∃ a b, s = a +:+ b ∧ toLowerCase a = x ∧ toLowerCase b = y.
Proof.
  revert s. induction x as [|c x IH]; intros s Heq.
  - by exists ""%string, s.
  - rewrite append_cons in Heq.
    destruct s as [|d s]; simpl in Heq; [discriminate|].
    injection Heq as Hc Hrest.
    destruct (IH s Hrest) as (a & b & -> & Ha & Hb).
    exists (String d a), b. simpl. by rewrite Hc, Ha.
Qed.

(** [status.toLowerCase().includes('new innings')] decides the
    case-insensitive substring match. *)
Lemma includes_new_innings (status : string) :
  includes (toLowerCase status) "new innings" = true ↔ Spec.new_innings status.
Proof.
  rewrite includes_app. unfold Spec.new_innings. split.
  - intros (pre & post & Heq).
    apply toLowerCase_split in Heq as (a & rest & -> & Ha & Hrest).
    apply toLowerCase_split in Hrest as (mid & b & -> & Hmid & Hb).
    by exists a, mid, b.
  - intros (pre & mid & post & -> & Hmid).
    exists (toLowerCase pre), (toLowerCase post).
    by rewrite !toLowerCase_app, Hmid.
Qed.

End StringFacts.

(** ** The reducer accumulator of test.js *)

Module FeedFacts.
Import JS.

Local Open Scope string_scope.
Local Open Scope list_scope.
Local Open Scope Z_scope.

(** Unfold [Feed.applyEvent] at a known event type. *)
Ltac at_type H :=
  unfold Feed.applyEvent; rewrite H;
  repeat (case_decide; try discriminate); simpl.

(** [Number(payload.runs) || d]: the coerced number, unless it is [0] or
    NaN. *)
Lemma or_default_nonzero (v : value) (d k : Z) :
  Number v = Int k → k ≠ 0 → or_default (Number v) (Int d) = Int k.
Proof.
  intros -> Hk. unfold or_default. simpl.
  destruct (Z.eqb_spec k 0); [lia | done].
Qed.

Lemma or_default_falsy (v : value) (d : Z) :
  Number v = Int 0 ∨ Number v = NaN → or_default (Number v) (Int d) = Int d.
Proof. by intros [-> | ->]. Qed.

Lemma applyEvent_BALL env state event :
  Event.type event = "BALL" →
  Feed.totalRuns (Feed.applyEvent env state event) =
    add (Feed.totalRuns state)
        (or_default (Number (Event.runs (Feed.payload_of event))) (Int 0)) ∧
  Feed.balls (Feed.applyEvent env state event) = add (Feed.balls state) (Int 1) ∧
  Feed.wickets (Feed.applyEvent env state event) = Feed.wickets state.
Proof. intros Hty. by at_type Hty. Qed.

Lemma applyEvent_BOUNDARY env state event :
  Event.type event = "BOUNDARY" →
  Feed.totalRuns (Feed.applyEvent env state event) =
    add (Feed.totalRuns state)
        (or_default (Number (Event.runs (Feed.payload_of event))) (Int 4)) ∧
  Feed.balls (Feed.applyEvent env state event) = add (Feed.balls state) (Int 1) ∧
  Feed.wickets (Feed.applyEvent env state event) = Feed.wickets state.
Proof. intros Hty. by at_type Hty. Qed.

Lemma applyEvent_MATCH_STATUS env state event :
  Event.type event = "MATCH_STATUS" →
  Feed.applyEvent env state event =
  let status := Feed.status_or_default (Event.status (Feed.payload_of event)) in
  let entries :=
    Feed.mkEntry event (Feed.now env, Feed.random env) (Feed.now env) None false
    :: Feed.commentary state in
  if includes (toLowerCase status) "new innings"
  then Feed.mkState (Int 0) (Int 0) (Int 0) entries status
  else Feed.mkState (Feed.totalRuns state) (Feed.wickets state)
         (Feed.balls state) entries status.
Proof. intros Hty. by at_type Hty. Qed.

Example boundary_six :
  Feed.totalRuns (Feed.applyEvent Samples.env1 Feed.initialState (Samples.boundary 6))
  = Int 6.
Proof. reflexivity. Qed.

Example event_without_payload :
  Feed.totalRuns (Feed.applyEvent Samples.env1 Feed.initialState
                    Samples.ball_without_payload) = Int 0.
Proof. reflexivity. Qed.

(** C10: in the reducer accumulator, for every state, a BOUNDARY event
    whose [payload.runs] coerces to 0 or to NaN (an explicit 0 included)
    adds exactly 4 to [totalRuns]. *)
Theorem boundary_falsy_runs_adds_four env state event :
  Event.type event = "BOUNDARY" →
  Number (Event.runs (Feed.payload_of event)) = Int 0 ∨
  Number (Event.runs (Feed.payload_of event)) = NaN →
  Feed.totalRuns (Feed.applyEvent env state event) =
  add (Feed.totalRuns state) (Int 4).
Proof.
  intros Hty Hfalsy.
  destruct (applyEvent_BOUNDARY env state event Hty) as (-> & _).
  by rewrite or_default_falsy.
Qed.

Lemma boundary_falsy_runs_adds_four_witness :
  Feed.totalRuns (Feed.applyEvent Samples.env1 (Feed.mkState (Int 10) (Int 0) (Int 3) [] "Live")
                    (Samples.boundary 0))
  = add (Int 10) (Int 4).
Proof.
  apply (boundary_falsy_runs_adds_four Samples.env1
           (Feed.mkState (Int 10) (Int 0) (Int 3) [] "Live") (Samples.boundary 0)).
  - reflexivity.
  - left. reflexivity.
Defined.

(** C5, as stated, fails in both accumulators: the reducer adds 4, not 0,
    for a BOUNDARY event whose [payload.runs] is the number 0, and the
    accumulator of App.js has no default at all: a BALL event without
    [payload.runs] makes [runs] NaN. *)
Lemma runs_default_counterexample :
  Feed.totalRuns (Feed.applyEvent Samples.env1 Feed.initialState (Samples.boundary 0))
  = Int 4 ∧
  App.applyEvent Samples.zero Samples.ball_without_runs
  = Ok (App.mkSummary NaN (Int 0) (Int 0) (Int 1)).
Proof. split; reflexivity. Qed.

(** C5, amended: in the reducer, a BALL or BOUNDARY event adds
    [Number(payload.runs)] to [totalRuns] and 1 to [balls], where a coerced
    value of NaN or 0 (a missing, a non-numeric or a zero [payload.runs])
    is replaced by 0 for BALL and by 4 for BOUNDARY; in App.js a BALL or
    BOUNDARY event with a payload adds [payload.runs] as it is, with no
    default, and 1 to [balls], before the over carry and the caps. *)
Theorem ball_boundary_add_runs env state summary event :
  Event.type event = "BALL" ∨ Event.type event = "BOUNDARY" →
  let d := if decide (Event.type event = "BALL") then 0 else 4 in
  let coerced := Number (Event.runs (Feed.payload_of event)) in
  let state' := Feed.applyEvent env state event in
  (∀ k, coerced = Int k → k ≠ 0 →
        Feed.totalRuns state' = add (Feed.totalRuns state) (Int k)) ∧
  (coerced = Int 0 ∨ coerced = NaN →
        Feed.totalRuns state' = add (Feed.totalRuns state) (Int d)) ∧
  Feed.balls state' = add (Feed.balls state) (Int 1) ∧
  (∀ payload, Event.payload event = Some payload →
     App.applyEvent summary event =
     Ok (App.applyEvent_tail
           (add (App.runs summary) (Number (Event.runs payload)))
           (App.wickets summary) (App.overs summary)
           (add (App.balls summary) (Int 1)))).
Proof.
  intros Hty d coerced state'. subst d coerced state'.
  assert (∀ payload, Event.payload event = Some payload →
     App.applyEvent summary event =
     Ok (App.applyEvent_tail
           (add (App.runs summary) (Number (Event.runs payload)))
           (App.wickets summary) (App.overs summary)
           (add (App.balls summary) (Int 1)))) as Happ.
  { intros payload Hp. by rewrite AppFacts.applyEvent_ball, Hp. }
  destruct Hty as [Hty|Hty].
  - destruct (applyEvent_BALL env state event Hty) as (-> & -> & _).
    rewrite decide_True by done.
    repeat split; [|intros Hf; by rewrite or_default_falsy|done].
    intros k Hk Hk0. by rewrite (or_default_nonzero _ _ k).
  - destruct (applyEvent_BOUNDARY env state event Hty) as (-> & -> & _).
    rewrite decide_False by (rewrite Hty; discriminate).
    repeat split; [|intros Hf; by rewrite or_default_falsy|done].
    intros k Hk Hk0. by rewrite (or_default_nonzero _ _ k).
Qed.

Lemma ball_boundary_add_runs_witness :
  Feed.balls (Feed.applyEvent Samples.env1 Feed.initialState (Samples.ball 2))
  = add (Feed.balls Feed.initialState) (Int 1).
Proof.
  apply (ball_boundary_add_runs Samples.env1 Feed.initialState Samples.zero
           (Samples.ball 2)).
  left. reflexivity.
Defined.

Example innings_break_keeps_score :
  let state := Feed.mkState (Int 175) (Int 7) (Int 120) [] "Live" in
  let state' := Feed.applyEvent Samples.env1 state (Samples.match_status "Innings Break") in
  (Feed.totalRuns state', Feed.wickets state', Feed.balls state', Feed.matchStatus state')
  = (Int 175, Int 7, Int 120, "Innings Break").
Proof. reflexivity. Qed.

(** A wicket followed by a new-innings status: the reducer zeroes the
    wicket just counted. *)
Example wicket_then_new_innings :
  let state := Feed.applyEvent Samples.env1 Feed.initialState Samples.wicket in
  let state' := Feed.applyEvent Samples.env2 state (Samples.match_status "NEW Innings") in
  Feed.wickets state = Int 1 ∧ Feed.wickets state' = Int 0.
Proof. split; reflexivity. Qed.

(** C4, as stated, fails in both accumulators: the one of App.js has no
    case for MATCH_STATUS, so a status carrying the marker resets nothing;
    the reducer keeps no [overs] of its own, they are computed from
    [balls], so its reset takes the overs back to 0.0 as well. *)
Lemma match_status_counterexample :
  App.applyEvent (Samples.summary 120 3 15 2) (Samples.match_status "New Innings")
  = Ok (Samples.summary 120 3 15 2) ∧
  (let state := Feed.mkState (Int 120) (Int 3) (Int 92) [] "Live" in
   let state' :=
     Feed.applyEvent Samples.env1 state (Samples.match_status "New Innings") in
   Feed.formatOvers (Feed.balls state) = (Int 15, Int 2) ∧
   Feed.formatOvers (Feed.balls state') = (Int 0, Int 0)).
Proof. split; [reflexivity | split; reflexivity]. Qed.

(** C4, amended: in the reducer, a MATCH_STATUS event leaves [totalRuns],
    [wickets] and [balls] as they are unless its status (after the default
    for an absent or empty one) contains "new innings" in any letter case,
    in which case the three are reset to 0, and with [balls] the overs
    computed from it; in App.js a MATCH_STATUS event, marker or not, hands
    back the summary unchanged. *)
Theorem match_status_reset env state summary event :
  Event.type event = "MATCH_STATUS" →
  let status := Feed.status_or_default (Event.status (Feed.payload_of event)) in
  let state' := Feed.applyEvent env state event in
  (Spec.new_innings status →
     Feed.totalRuns state' = Int 0 ∧ Feed.wickets state' = Int 0 ∧
     Feed.balls state' = Int 0 ∧
     Feed.formatOvers (Feed.balls state') = (Int 0, Int 0)) ∧
  (¬ Spec.new_innings status →
     Feed.totalRuns state' = Feed.totalRuns state ∧
     Feed.wickets state' = Feed.wickets state ∧
     Feed.balls state' = Feed.balls state) ∧
  Feed.matchStatus state' = status ∧
  App.applyEvent summary event = Ok summary.
Proof.
  intros Hty status state'. subst state'.
  rewrite applyEvent_MATCH_STATUS by done. fold status. simpl.
  pose proof (StringFacts.includes_new_innings status) as Hmark.
  destruct (includes (toLowerCase status) "new innings"); simpl.
  - assert (Spec.new_innings status) as Hyes by (by apply Hmark).
    repeat split; try done.
    apply AppFacts.applyEvent_other. unfold App.scoring. rewrite Hty.
    intros [?|[?|?]]; discriminate.
  - assert (¬ Spec.new_innings status) as Hno.
    { intros H. apply Hmark in H. discriminate. }
    repeat split; try done.
    apply AppFacts.applyEvent_other. unfold App.scoring. rewrite Hty.
    intros [?|[?|?]]; discriminate.
Qed.

Lemma match_status_reset_witness :
  let status :=
    Feed.status_or_default
      (Event.status (Feed.payload_of (Samples.match_status "Start of New Innings"))) in
  let state' :=
    Feed.applyEvent Samples.env1 (Feed.mkState (Int 120) (Int 3) (Int 92) [] "Live")
      (Samples.match_status "Start of New Innings") in
  Spec.new_innings status ∧ Feed.totalRuns state' = Int 0.
Proof.
  intros status state'. split.
  - by exists "Start of ", "New Innings", "".
  - apply (match_status_reset Samples.env1
             (Feed.mkState (Int 120) (Int 3) (Int 92) [] "Live") Samples.zero
             (Samples.match_status "Start of New Innings")).
    + reflexivity.
    + by exists "Start of ", "New Innings", "".
Defined.


(** Two applications of the reducer's [applyEvent] to the same state and
    event, at different times. *)
Example reducer_stamps_differ :
  Feed.applyEvent Samples.env1 Feed.initialState (Samples.ball 1) ≠
  Feed.applyEvent Samples.env2 Feed.initialState (Samples.ball 1).
Proof.
  intros Heq. apply (f_equal Feed.commentary) in Heq.
  vm_compute in Heq. discriminate Heq.
Qed.

End FeedFacts.

(** ** The pipeline coordinator of App.js *)

Module CoordinatorFacts.
Import JS App.

Local Open Scope list_scope.

Lemma bind_assoc {A B C : Type} (r : result A) (f : A → result B) (g : B → result C) :
  bind (bind r f) g = bind r (λ a, bind (f a) g).
Proof. by destruct r. Qed.

Lemma bind_ext {A B : Type} (r : result A) (f g : A → result B) :
  (∀ a, f a = g a) → bind r f = bind r g.
Proof. intros Hfg. destruct r; simpl; [apply Hfg | done]. Qed.

Lemma foldM_app {S E : Type} (step : S → E → result S) (s : S) (xs ys : list E) :
  foldM step s (xs ++ ys) = bind (foldM step s xs) (λ s', foldM step s' ys).
Proof.
  revert s. induction xs as [|x xs IH]; intros s; simpl; [done|].
  rewrite bind_assoc. apply bind_ext. intros s'. apply IH.
Qed.

(** Folding event by event is folding batch by batch. *)
Lemma foldM_concat {S E : Type} (step : S → E → result S) (s : S)
    (batches : list (list E)) :
  foldM step s (concat batches) = foldM (foldM step) s batches.
Proof.
  revert s. induction batches as [|b batches IH]; intros s; simpl; [done|].
  rewrite foldM_app. apply bind_ext. intros s'. apply IH.
Qed.

Lemma splice_all {A : Type} (arr : list A) : splice arr 0 = (arr, []).
Proof. unfold splice. by rewrite drop_0, take_0. Qed.

Lemma drain_step_fold b ups (q : list Event.t) :
  foldl drain_step (b, ups) q =
  (RingBuffer.pushes b q, ups ++ (SetSummary <$> q)).
Proof.
  revert b ups. induction q as [|e q IH]; intros b ups; simpl.
  - by rewrite app_nil_r.
  - unfold drain_step at 2. simpl. rewrite IH. by rewrite <- app_assoc.
Qed.

Lemma drainTick_empty (r : Refs) :
  queueRef r = [] → drainTick r = (r, []).
Proof.
  intros Hq. unfold drainTick. rewrite splice_all, Hq. simpl.
  destruct r as [b q]. simpl in *. by subst.
Qed.

Lemma drainTick_batch (r : Refs) :
  queueRef r ≠ [] →
  drainTick r =
  let b := RingBuffer.pushes (buffer r) (queueRef r) in
  ({| buffer := b; queueRef := [] |},
   (SetSummary <$> queueRef r) ++ [SetFeed (RingBuffer.toArrayDesc b)]).
Proof.
  intros Hq. unfold drainTick. rewrite splice_all.
  rewrite decide_True by (by destruct (queueRef r)).
  by rewrite drain_step_fold.
Qed.

Lemma commit_summaries (v : View) (q : list Event.t) :
  commit v (SetSummary <$> q) =
  bind (foldM applyEvent (summary v) q)
    (λ s, Ok {| feed := feed v; summary := s |}).
Proof.
  unfold commit. revert v. induction q as [|e q IH]; intros v; simpl.
  - by destruct v.
  - rewrite !bind_assoc. apply bind_ext. intros s. simpl. by rewrite IH.
Qed.

(** What one non-empty drained batch does to the views. *)
Lemma commit_batch (v : View) (q : list Event.t) arr :
  commit v ((SetSummary <$> q) ++ [SetFeed arr]) =
  bind (foldM applyEvent (summary v) q) (λ s, Ok {| feed := arr; summary := s |}).
Proof.
  unfold commit. rewrite foldM_app. fold (commit v (SetSummary <$> q)).
  rewrite commit_summaries, bind_assoc. by apply bind_ext.
Qed.

Lemma tracks_initial : tracks (initialRefs, Ok initialView) [].
Proof. by exists []. Qed.

Lemma tracks_step st evs a :
  tracks st evs → tracks (step st a) (evs ++ produced [a]).
Proof.
  destruct st as [r v]. intros (applied & Hevs & Hbuf & Hview). simpl in *.
  destruct a as [evt|]; simpl.
  - exists applied. simpl. repeat split; [|done|done].
    by rewrite app_assoc, Hevs.
  - rewrite app_nil_r.
    destruct (decide (queueRef r = [])) as [Hq|Hq].
    + rewrite drainTick_empty by done. exists applied. simpl.
      repeat split; [done|done|].
      rewrite Hview, bind_assoc. apply bind_ext. by intros s.
    + rewrite drainTick_batch by done. simpl.
      exists (applied ++ queueRef r). simpl. repeat split.
      * by rewrite app_nil_r.
      * rewrite Hbuf. unfold RingBuffer.pushes. by rewrite foldl_app.
      * rewrite Hview, bind_assoc, foldM_app, bind_assoc.
        apply bind_ext. intros s. simpl. by rewrite commit_batch.
Qed.

Lemma tracks_run st evs acts :
  tracks st evs → tracks (run st acts) (evs ++ produced acts).
Proof.
  unfold run. revert st evs.
  induction acts as [|a acts IH]; intros st evs Hst; simpl.
  - by rewrite app_nil_r.
  - apply (tracks_step _ _ a), (IH _ _) in Hst.
    unfold produced in *. simpl in *.
    destruct a; simpl in *; by rewrite <- ?app_assoc, ?app_nil_r in Hst.
Qed.

(** Three events over two drain ticks, the last one still queued. *)
Example two_ticks :
  let e1 := Samples.ball 1 in
  let e2 := Samples.wicket in
  let e3 := Samples.boundary 4 in
  let st := run (initialRefs, Ok initialView)
              [Produce e1; Drain; Produce e2; Produce e3; Drain; Drain] in
  st.2 = Ok {| feed := [Item e3; Item e2; Item e1];
               summary := Samples.summary 5 1 0 3 |} ∧
  queueRef st.1 = [].
Proof. split; reflexivity. Qed.

(** C7: the drain removes and returns every queued event in arrival order
    and leaves the queue empty; the events are pushed and folded in that
    order; on an empty queue nothing else happens: the refs are as they
    were, no update is requested and the views stay what they are. *)
Theorem drainTick_drains_all (r : Refs) (v : View) :
  splice (queueRef r) 0 = (queueRef r, []) ∧
  queueRef (drainTick r).1 = [] ∧
  buffer (drainTick r).1 = RingBuffer.pushes (buffer r) (queueRef r) ∧
  (queueRef r ≠ [] →
   (drainTick r).2 =
   (SetSummary <$> queueRef r)
   ++ [SetFeed (RingBuffer.toArrayDesc (buffer (drainTick r).1))]) ∧
  (queueRef r = [] →
   drainTick r = (r, []) ∧ commit v (drainTick r).2 = Ok v).
Proof.
  split; [apply splice_all|].
  destruct (decide (queueRef r = [])) as [Hq|Hq].
  - rewrite drainTick_empty by done. simpl. rewrite Hq. by repeat split.
  - rewrite drainTick_batch by done. simpl. by repeat split.
Qed.

Lemma drainTick_drains_all_witness :
  drainTick initialRefs = (initialRefs, []) ∧
  commit initialView (drainTick initialRefs).2 = Ok initialView.
Proof.
  apply (drainTick_drains_all initialRefs initialView). reflexivity.
Defined.

Lemma queueRef_drainTick (r : Refs) : queueRef (drainTick r).1 = [].
Proof.
  destruct (decide (queueRef r = [])) as [Hq|Hq].
  - by rewrite drainTick_empty.
  - by rewrite drainTick_batch.
Qed.

Lemma produced_app (acts1 acts2 : list Action) :
  produced (acts1 ++ acts2) = produced acts1 ++ produced acts2.
Proof. unfold produced. apply omap_app. Qed.

Lemma produced_Produce (es : list Event.t) : produced (Produce <$> es) = es.
Proof.
  induction es as [|e es IH]; [done|].
  change (produced (Produce <$> e :: es)) with (e :: produced (Produce <$> es)).
  by rewrite IH.
Qed.

Lemma run_app st (acts1 acts2 : list Action) :
  run st (acts1 ++ acts2) = run (run st acts1) acts2.
Proof. unfold run. apply foldl_app. Qed.

(** Producer ticks alone only lengthen the queue. *)
Lemma run_Produce st (es : list Event.t) :
  run st (Produce <$> es) =
  ({| buffer := buffer st.1; queueRef := queueRef st.1 ++ es |}, st.2).
Proof.
  unfold run. revert st. induction es as [|e es IH]; intros [[b q] v]; simpl.
  - by rewrite app_nil_r.
  - rewrite IH. simpl. by rewrite <- app_assoc.
Qed.

(** Right after a drain tick everything produced has been applied. *)
Lemma run_drained (acts : list Action) :
  let st := run (initialRefs, Ok initialView) (acts ++ [Drain]) in
  queueRef st.1 = [] ∧
  buffer st.1 = RingBuffer.pushes (RingBuffer.new 100) (produced acts) ∧
  st.2 = bind (foldM applyEvent (summary initialView) (produced acts))
           (λ s, Ok {| feed := RingBuffer.toArrayDesc
                                 (RingBuffer.pushes (RingBuffer.new 100) (produced acts));
                       summary := s |}).
Proof.
  intros st.
  assert (queueRef st.1 = []) as Hq.
  { subst st. rewrite run_app. simpl.
    destruct (run (initialRefs, Ok initialView) acts) as [r v]. simpl.
    pose proof (queueRef_drainTick r) as Hd.
    by destruct (drainTick r). }
  pose proof (tracks_run (initialRefs, Ok initialView) [] (acts ++ [Drain])
                tracks_initial) as (applied & Hevs & Hbuf & Hview).
  fold st in Hevs, Hbuf, Hview.
  rewrite Hq, app_nil_r in Hevs. simpl in Hevs.
  rewrite produced_app, app_nil_r in Hevs. subst applied.
  split; [done|]. split; [done|]. by rewrite Hview, Hbuf.
Qed.

Lemma produced_batches (batches : list (list Event.t)) :
  produced (concat ((λ b, (Produce <$> b) ++ [Drain]) <$> batches)) = concat batches.
Proof.
  induction batches as [|b batches IH]; [done|].
  rewrite fmap_cons, !concat_cons, !produced_app, produced_Produce, IH.
  change (produced [Drain]) with (@nil Event.t). by rewrite app_nil_r.
Qed.

(** C8: folding the events one at a time equals folding them batch by
    batch, for every split into contiguous batches; and in every run of the
    component the events are applied in the order they were enqueued:
    right after any drain tick, whatever producer and drain ticks came
    before it, every produced event has been pushed into the ring buffer
    and folded into the summary, in order of production, and the events
    produced since are queued in that order; events enqueued batch by
    batch, with a drain after each batch, end in the fold of the batch
    folds. *)
Theorem fold_batches_in_order (s0 : Summary) (batches : list (list Event.t))
    (acts : list Action) (es : list Event.t) :
  foldM applyEvent s0 (concat batches) = foldM (foldM applyEvent) s0 batches ∧
  (let st := run (initialRefs, Ok initialView) (acts ++ [Drain] ++ (Produce <$> es)) in
   queueRef st.1 = es ∧
   buffer st.1 = RingBuffer.pushes (RingBuffer.new 100) (produced acts) ∧
   st.2 = bind (foldM applyEvent (summary initialView) (produced acts))
            (λ s, Ok {| feed := RingBuffer.toArrayDesc
                                  (RingBuffer.pushes (RingBuffer.new 100) (produced acts));
                        summary := s |})) ∧
  run (initialRefs, Ok initialView) (Produce <$> es) =
    ({| buffer := RingBuffer.new 100; queueRef := es |}, Ok initialView) ∧
  (let st := run (initialRefs, Ok initialView)
               (concat ((λ b, (Produce <$> b) ++ [Drain]) <$> batches)) in
   queueRef st.1 = [] ∧
   buffer st.1 = RingBuffer.pushes (RingBuffer.new 100) (concat batches) ∧
   st.2 = bind (foldM (foldM applyEvent) (summary initialView) batches)
            (λ s, Ok {| feed := RingBuffer.toArrayDesc
                                  (RingBuffer.pushes (RingBuffer.new 100) (concat batches));
                        summary := s |})).
Proof.
  split; [apply foldM_concat|]. split; [|split].
  - intros st. subst st. rewrite app_assoc, run_app, run_Produce.
    destruct (run_drained acts) as (Hq & Hbuf & Hview).
    simpl. by rewrite Hq, Hbuf, Hview.
  - by rewrite run_Produce.
  - intros st. subst st. rewrite <- foldM_concat.
    destruct batches as [|b batches _] using rev_ind; [done|].
    rewrite fmap_app, concat_app. simpl. rewrite app_nil_r, app_assoc.
    destruct (run_drained
                (concat ((λ b, (Produce <$> b) ++ [Drain]) <$> batches)
                 ++ (Produce <$> b))) as (Hq & Hbuf & Hview).
    rewrite produced_app, produced_batches, produced_Produce in Hbuf, Hview.
    rewrite concat_app. simpl. rewrite app_nil_r.
    by rewrite Hq, Hbuf, Hview.
Qed.

End CoordinatorFacts.

(** * Further properties *)

(** ** Ring buffer: any well-formed state, and the layout of the cells *)

Module RingBufferMore.
Import RingBuffer RingBufferFacts.

Section more.
Context {A : Type}.
Implicit Types (rb : t A) (x : A) (items : list A).

Lemma toArrayDesc_push rb x :
  wf rb →
  toArrayDesc (push rb x) = take (limit rb) (Item x :: toArrayDesc rb).
Proof.
  intros Hwf. pose proof Hwf as [HL Hb Hh Hc].
  rewrite !toArrayDesc_contents by (try apply push_wf; done).
  rewrite contents_push by done. rewrite reverse_snoc.
  destruct (limit rb) as [|L] eqn:HLim; [lia|]. simpl. f_equal.
  case_decide as Hroom.
  - rewrite take_ge; [done|]. rewrite length_reverse, length_contents. lia.
  - rewrite reverse_drop, length_contents. f_equal. lia.
Qed.

Lemma take_app_take {B : Type} (n : nat) (l k : list B) :
  take n (l ++ take n k) = take n (l ++ k).
Proof.
  rewrite !take_app, take_take. do 2 f_equal. lia.
Qed.

Lemma toArrayDesc_pushes_wf rb items :
  wf rb →
  toArrayDesc (pushes rb items) =
  take (limit rb) ((Item <$> reverse items) ++ toArrayDesc rb).
Proof.
  unfold pushes. revert rb.
  induction items as [|x items IH]; intros rb Hwf; simpl.
  - rewrite take_ge; [done|].
    rewrite toArrayDesc_contents, length_reverse, length_contents by done.
    apply Hwf.
  - rewrite IH by (by apply push_wf).
    rewrite limit_push, toArrayDesc_push by done.
    rewrite take_app_take, reverse_cons, fmap_app. simpl.
    by rewrite <- app_assoc.
Qed.

Lemma head_push rb x :
  head (push rb x) =
  if decide (count rb < limit rb) then head rb else (head rb + 1) mod limit rb.
Proof. unfold push. by case_decide. Qed.

Lemma head_pushes (N : nat) items :
  1 ≤ N → head (pushes (new N) items) = (length items - N) mod N.
Proof.
  intros HN. induction items as [|x items IH] using rev_ind.
  - simpl. by rewrite Nat.Div0.mod_0_l.
  - unfold pushes in *. rewrite foldl_snoc.
    pose proof (count_pushes N items HN) as Hcount.
    pose proof (limit_pushes (new N) items) as Hlim. simpl in Hlim.
    unfold pushes in Hcount, Hlim.
    rewrite head_push, Hcount, Hlim, length_app. simpl.
    case_decide as Hroom; simpl.
    + rewrite IH.
      replace (length items - N) with 0 by lia.
      by replace (length items + 1 - N) with 0 by lia.
    + rewrite IH, Nat.Div0.add_mod_idemp_l. f_equal. lia.
Qed.

End more.

(** X1: from any well-formed buffer (storage of [limit >= 1] cells, head
    inside it, [count <= limit]), a sequence of pushes keeps the buffer
    well formed and of the same limit, and the snapshot afterwards is the
    new items, newest first, followed by the old snapshot, cut to [limit]
    entries. *)
Theorem pushes_from_any_state {A : Type} (rb : t A) (items : list A) :
  wf rb →
  wf (pushes rb items) ∧
  limit (pushes rb items) = limit rb ∧
  toArrayDesc (pushes rb items) =
  take (limit rb) ((Item <$> reverse items) ++ toArrayDesc rb).
Proof.
  intros Hwf. split; [by apply pushes_wf|]. split; [apply limit_pushes|].
  by apply toArrayDesc_pushes_wf.
Qed.

Lemma pushes_from_any_state_witness :
  let rb := mk 3 [Item 5; Item 3; Item 4] 1 3 in
  toArrayDesc (pushes rb [6; 7]) =
  take 3 ((Item <$> reverse [6; 7]) ++ toArrayDesc rb).
Proof.
  intros rb. apply (pushes_from_any_state rb [6; 7]).
  split; simpl; lia.
Defined.

(** X2: the layout of the storage.  After any pushes into a fresh buffer of
    capacity [N >= 1], [head] is [(length items - N) mod N] (0 until the
    buffer is full), and the item pushed as number [i] (from 0), if it is
    one of the last [N], sits in cell [i mod N]. *)
Theorem cell_of_item {A : Type} (N : nat) (items : list A) (i : nat) (x : A) :
  1 ≤ N →
  items !! i = Some x →
  length items - N ≤ i →
  let rb := pushes (new N) items in
  head rb = (length items - N) mod N ∧
  buf rb !! (i mod N) = Some (Item x).
Proof.
  intros HN Hx Hi rb. subst rb.
  pose proof (head_pushes N items HN) as Hhead.
  split; [done|].
  pose proof (lookup_lt_Some _ _ _ Hx) as Hlt.
  pose proof (pushes_wf (new N) items (new_wf N HN)) as [_ Hb _ _].
  pose proof (limit_pushes (new (A:=A) N) items) as Hlim. simpl in Hlim.
  pose proof (count_pushes N items HN) as Hcount.
  set (j := i - (length items - N)).
  assert (j < count (pushes (new N) items)) as Hj by (subst j; lia).
  pose proof (contents_lookup _ _ Hj) as Hc.
  rewrite contents_pushes in Hc by done.
  rewrite list_lookup_fmap, lookup_drop in Hc.
  replace (length items - N + j) with i in Hc by (subst j; lia).
  rewrite Hx in Hc. simpl in Hc. injection Hc as Hc.
  rewrite Hhead, Hlim, Nat.Div0.add_mod_idemp_l in Hc.
  replace (length items - N + j) with i in Hc by (subst j; lia).
  unfold load in Hc.
  destruct (buf (pushes (new N) items) !! (i mod N)) as [y|] eqn:Hy.
  - simpl in Hc. by subst y.
  - apply lookup_ge_None in Hy. rewrite Hb, Hlim in Hy.
    pose proof (Nat.mod_upper_bound i N). lia.
Qed.

Lemma cell_of_item_witness :
  let rb := pushes (new 3) [10; 20; 30; 40; 50] in
  head rb = (length [10; 20; 30; 40; 50] - 3) mod 3 ∧
  buf rb !! (4 mod 3) = Some (Item 50).
Proof.
  apply (cell_of_item 3 [10; 20; 30; 40; 50] 4 50); [lia | reflexivity | simpl; lia].
Defined.

End RingBufferMore.

(** ** The accumulator of App.js: errors, NaN, deliveries, monotonicity *)

Module AppMore.
Import JS App AppFacts.

Local Open Scope string_scope.
Local Open Scope list_scope.
Local Open Scope Z_scope.

(** The tail on integer locals with a non-negative ball count. *)
Lemma applyEvent_tail_closed (r w o b : Z) :
  0 ≤ b →
  applyEvent_tail (Int r) (Int w) (Int o) (Int b) =
  mkSummary (Int (Z.min r 300)) (Int (Z.min w 10))
    (Int (Z.min (o + b / 6) 50)) (Int (b mod 6)).
Proof.
  intros Hb. rewrite applyEvent_tail_spec.
  unfold Spec.carry_then_clamp, Spec.over_carry.
  rewrite over_carry_loop_closed.
  case_decide as Hsix; unfold Spec.clamp; simpl.
  - by rewrite Z.rem_mod_nonneg by lia.
  - rewrite Z.div_small, Z.mod_small, Z.add_0_r by lia. done.
Qed.

(** What a well-formed event adds: runs and wickets. *)
Lemma applyEvent_closed (r w o b : Z) (evt : Event.t) :
  0 ≤ b →
  Streams.numeric_runs evt →
  ∃ dr dw db : Z,
    0 ≤ dr ∧ 0 ≤ dw ≤ 1 ∧ 0 ≤ db ≤ 1 ∧
    (Event.type evt = "WICKET" → dr = 0 ∧ dw = 1 ∧ db = 1) ∧
    (Event.type evt = "BALL" ∨ Event.type evt = "BOUNDARY" → dw = 0 ∧ db = 1) ∧
    (¬ scoring evt → dr = 0 ∧ dw = 0 ∧ db = 0) ∧
    applyEvent (mkSummary (Int r) (Int w) (Int o) (Int b)) evt =
    Ok (if decide (scoring evt)
        then mkSummary (Int (Z.min (r + dr) 300)) (Int (Z.min (w + dw) 10))
               (Int (Z.min (o + (b + db) / 6) 50)) (Int ((b + db) mod 6))
        else mkSummary (Int r) (Int w) (Int o) (Int b)).
Proof.
  intros Hb Hruns.
  destruct (decide (Event.type evt = "BALL" ∨ Event.type evt = "BOUNDARY"))
    as [Hball|Hnball].
  - destruct (Hruns Hball) as (payload & k & Hp & Hk & Hk0).
    exists k, 0, 1.
    split_and!; [lia | lia | lia | lia | lia | | | | ].
    + intros Hw. destruct Hball; congruence.
    + intros _. lia.
    + unfold scoring. tauto.
    + rewrite applyEvent_ball, Hp by done. simpl. rewrite Hk. simpl.
      rewrite decide_True by (unfold scoring; tauto).
      rewrite applyEvent_tail_closed by lia. by rewrite Z.add_0_r.
  - destruct (decide (Event.type evt = "WICKET")) as [Hw|Hnw].
    + exists 0, 1, 1.
      split_and!; [lia | lia | lia | lia | lia | | | | ].
      * intros _. lia.
      * tauto.
      * unfold scoring. tauto.
      * rewrite applyEvent_wicket by done. simpl.
        rewrite decide_True by (unfold scoring; tauto).
        rewrite applyEvent_tail_closed by lia. by rewrite Z.add_0_r.
    + exists 0, 0, 0.
      split_and!; [lia | lia | lia | lia | lia | | | | ].
      * tauto.
      * tauto.
      * intros _. lia.
      * rewrite applyEvent_other by (unfold scoring; tauto).
        by rewrite decide_False by (unfold scoring; tauto).
Qed.

Lemma applyEvent_in_bounds (s : Summary) (evt : Event.t) :
  Spec.in_bounds s → Streams.numeric_runs evt →
  ∃ s', applyEvent s evt = Ok s' ∧ Spec.in_bounds s'.
Proof.
  intros (r & w & o & b & -> & Hb) Hruns.
  destruct (applyEvent_closed r w o b evt) as
    (dr & dw & db & Hdr & Hdw & Hdb & _ & _ & _ & ->); [lia | done |].
  eexists. split; [done|]. case_decide.
  - eexists _, _, _, _. split; [done|].
    pose proof (Z.mod_pos_bound (b + db) 6).
    pose proof (Z.div_pos (b + db) 6). lia.
  - by exists r, w, o, b.
Qed.

Lemma foldM_in_bounds (s : Summary) (evs : list Event.t) :
  Spec.in_bounds s → Forall Streams.numeric_runs evs →
  ∃ s', foldM applyEvent s evs = Ok s' ∧ Spec.in_bounds s'.
Proof.
  intros Hs Hevs. revert s Hs.
  induction Hevs as [|evt evs Hevt _ IH]; intros s Hs; simpl.
  - by exists s.
  - destruct (applyEvent_in_bounds s evt Hs Hevt) as (s1 & -> & Hs1). simpl.
    by apply IH.
Qed.

Lemma runs_NaN_step (s s' : Summary) (evt : Event.t) :
  runs s = NaN → applyEvent s evt = Ok s' → runs s' = NaN.
Proof.
  intros Hnan. unfold applyEvent, applyEvent_switch. rewrite Hnan.
  repeat case_decide; try destruct (Event.payload evt); intros Heq;
    try discriminate Heq; injection Heq as <-; try done;
    unfold applyEvent_tail; by destruct (ge _ _).
Qed.

Lemma runs_NaN_foldM (s s' : Summary) (evs : list Event.t) :
  runs s = NaN → foldM applyEvent s evs = Ok s' → runs s' = NaN.
Proof.
  revert s. induction evs as [|evt evs IH]; intros s Hnan; simpl.
  - by intros [= <-].
  - destruct (applyEvent s evt) as [s1|] eqn:H1; simpl; [|done].
    apply IH. by eapply runs_NaN_step.
Qed.

Lemma applyEvent_TypeError (summary : Summary) (evt : Event.t) :
  applyEvent summary evt = TypeError ↔
  (Event.type evt = "BALL" ∨ Event.type evt = "BOUNDARY") ∧
  Event.payload evt = None.
Proof.
  unfold applyEvent, applyEvent_switch.
  repeat case_decide; try destruct (Event.payload evt); split;
    try done; try tauto; intros [_ [=]].
Qed.

(** X3: [applyEvent] of App.js raises exactly for a BALL or BOUNDARY event
    without a payload object; every other event, a WICKET without payload
    included, returns a summary, whatever the summary it is given. *)
Theorem applyEvent_throws_iff (summary : Summary) (evt : Event.t) :
  (applyEvent summary evt = TypeError ↔
   (Event.type evt = "BALL" ∨ Event.type evt = "BOUNDARY") ∧
   Event.payload evt = None) ∧
  (applyEvent summary evt ≠ TypeError ↔ ∃ s', applyEvent summary evt = Ok s').
Proof.
  split; [apply applyEvent_TypeError|].
  destruct (applyEvent summary evt) as [s'|]; split; try done.
  - intros _. by exists s'.
  - intros [s' [=]].
Qed.

(** X4: a BALL or BOUNDARY event whose [payload.runs] does not coerce to a
    number (it is absent, say) turns [runs] into NaN, and no later event
    repairs it: the cap [runs > 300] is never true of NaN. *)
Theorem missing_runs_poison (s : Summary) (evt : Event.t)
    (payload : Event.Payload) (evs : list Event.t) :
  Event.type evt = "BALL" ∨ Event.type evt = "BOUNDARY" →
  Event.payload evt = Some payload →
  Number (Event.runs payload) = NaN →
  (∃ s1, applyEvent s evt = Ok s1 ∧ runs s1 = NaN) ∧
  (∀ s', foldM applyEvent s (evt :: evs) = Ok s' → runs s' = NaN).
Proof.
  intros Hty Hp Hnan.
  assert (∃ s1, applyEvent s evt = Ok s1 ∧ runs s1 = NaN) as (s1 & H1 & Hs1).
  { rewrite applyEvent_ball, Hp, Hnan by done. eexists. split; [done|].
    destruct (runs s); unfold applyEvent_tail; simpl; by destruct (ge _ _). }
  split; [by exists s1|].
  intros s'. simpl. rewrite H1. simpl. by apply runs_NaN_foldM.
Qed.

Lemma missing_runs_poison_witness :
  (∃ s1, applyEvent (Samples.summary 12 1 2 3) Samples.boundary_without_runs = Ok s1 ∧
         runs s1 = NaN) ∧
  (∀ s', foldM applyEvent (Samples.summary 12 1 2 3)
           (Samples.boundary_without_runs :: [Samples.ball 1; Samples.wicket]) = Ok s' →
         runs s' = NaN).
Proof.
  apply (missing_runs_poison (Samples.summary 12 1 2 3)
           Samples.boundary_without_runs
           (Event.mkPayload VUndefined None None)
           [Samples.ball 1; Samples.wicket]); [by right | reflexivity | reflexivity].
Defined.

(** X5: deliveries.  From a summary within the bounds, a scoring event
    (BALL, BOUNDARY or WICKET) that is well formed counts one delivery:
    below the cap of 50 overs, [6 * overs + balls] grows by exactly one; at
    50 overs the overs stay, and the sixth ball of the over takes [balls]
    back to 0, so that delivery count drops from 305 to 300. *)
Theorem delivery_count (r w o b : Z) (evt : Event.t) :
  0 ≤ b ≤ 5 → 0 ≤ o ≤ 50 →
  scoring evt → Streams.numeric_runs evt →
  ∃ r' w' o' b' : Z,
    applyEvent (mkSummary (Int r) (Int w) (Int o) (Int b)) evt =
    Ok (mkSummary (Int r') (Int w') (Int o') (Int b')) ∧
    0 ≤ b' ≤ 5 ∧
    (o < 50 → 6 * o' + b' = 6 * o + b + 1) ∧
    (o = 50 → o' = 50 ∧ (b < 5 → b' = b + 1) ∧ (b = 5 → b' = 0)).
Proof.
  intros Hb Ho Hsc Hruns.
  destruct (applyEvent_closed r w o b evt) as
    (dr & dw & db & Hdr & Hdw & Hdb & Hwk & Hbl & _ & ->); [lia | done |].
  rewrite decide_True by done.
  assert (db = 1) as ->.
  { destruct Hsc as [?|[?|?]]; [apply Hbl | apply Hbl | apply Hwk]; tauto. }
  eexists _, _, _, _. split; [done|].
  destruct (decide (b = 5)) as [->|Hb5].
  - change ((5 + 1) / 6) with 1. change ((5 + 1) mod 6) with 0. lia.
  - rewrite Z.div_small, Z.mod_small by lia. lia.
Qed.

Lemma delivery_count_witness :
  ∃ r' w' o' b' : Z,
    applyEvent (mkSummary (Int 290) (Int 9) (Int 50) (Int 5)) Samples.wicket =
    Ok (mkSummary (Int r') (Int w') (Int o') (Int b')) ∧
    0 ≤ b' ≤ 5 ∧
    (50 < 50 → 6 * o' + b' = 6 * 50 + 5 + 1) ∧
    (50 = 50 → o' = 50 ∧ (5 < 5 → b' = 5 + 1) ∧ (5 = 5 → b' = 0)).
Proof.
  apply (delivery_count 290 9 50 5 Samples.wicket); [lia | lia | |].
  - right. right. reflexivity.
  - intros [H|H]; discriminate H.
Defined.

(** X6: from a summary within the bounds, a well-formed event never lowers
    runs, wickets or overs; a WICKET leaves runs as they are, any other
    event leaves wickets as they are, and an event that is none of BALL,
    BOUNDARY, WICKET changes nothing. *)
Theorem totals_monotone (r w o b : Z) (evt : Event.t) :
  0 ≤ b ≤ 5 → 0 ≤ w ≤ 10 → 0 ≤ r ≤ 300 → 0 ≤ o ≤ 50 →
  Streams.numeric_runs evt →
  ∃ r' w' o' b' : Z,
    applyEvent (mkSummary (Int r) (Int w) (Int o) (Int b)) evt =
    Ok (mkSummary (Int r') (Int w') (Int o') (Int b')) ∧
    r ≤ r' ∧ w ≤ w' ≤ w + 1 ∧ o ≤ o' ≤ o + 1 ∧
    (Event.type evt = "WICKET" → r' = r) ∧
    (Event.type evt ≠ "WICKET" → w' = w) ∧
    (¬ scoring evt → r' = r ∧ w' = w ∧ o' = o ∧ b' = b).
Proof.
  intros Hb Hw Hr Ho Hruns.
  destruct (applyEvent_closed r w o b evt) as
    (dr & dw & db & Hdr & Hdw & Hdb & Hwk & Hbl & Hno & ->); [lia | done |].
  case_decide as Hsc.
  - eexists _, _, _, _. split; [done|].
    assert (0 ≤ (b + db) / 6 ≤ 1) as Hq.
    { split; [apply Z.div_pos; lia|].
      apply Z.lt_succ_r, Z.div_lt_upper_bound; lia. }
    split_and!; try lia.
    + intros Hty. destruct (Hwk Hty) as (-> & _). lia.
    + intros Hty. destruct Hsc as [Hsc|[Hsc|Hsc]]; [| |done].
      * destruct Hbl as (-> & _); [tauto|lia].
      * destruct Hbl as (-> & _); [tauto|lia].
    + tauto.
  - eexists _, _, _, _. split; [done|]. split_and!; try lia; done.
Qed.

Lemma totals_monotone_witness :
  ∃ r' w' o' b' : Z,
    applyEvent (mkSummary (Int 298) (Int 10) (Int 12) (Int 5)) (Samples.boundary 6) =
    Ok (mkSummary (Int r') (Int w') (Int o') (Int b')) ∧
    298 ≤ r' ∧ 10 ≤ w' ≤ 10 + 1 ∧ 12 ≤ o' ≤ 12 + 1 ∧
    (Event.type (Samples.boundary 6) = "WICKET" → r' = 298) ∧
    (Event.type (Samples.boundary 6) ≠ "WICKET" → w' = 10) ∧
    (¬ scoring (Samples.boundary 6) → r' = 298 ∧ w' = 10 ∧ o' = 12 ∧ b' = 5).
Proof.
  apply (totals_monotone 298 10 12 5 (Samples.boundary 6)); [lia | lia | lia | lia |].
  intros _. eexists _, 6. split; [reflexivity|]. split; [reflexivity | lia].
Defined.

(** X7: folding any list of well-formed events from a summary within the
    bounds never raises and ends within the bounds
    [0 <= balls <= 5], [0 <= wickets <= 10], [0 <= runs <= 300],
    [0 <= overs <= 50]. *)
Theorem fold_sequence_in_bounds (s : Summary) (evs : list Event.t) :
  Spec.in_bounds s →
  Forall Streams.numeric_runs evs →
  ∃ s', foldM applyEvent s evs = Ok s' ∧ Spec.in_bounds s'.
Proof. apply foldM_in_bounds. Qed.

Lemma fold_sequence_in_bounds_witness :
  ∃ s', foldM applyEvent Samples.zero
          [Samples.ball 1; Samples.wicket; Samples.match_status "Innings Break"]
        = Ok s' ∧ Spec.in_bounds s'.
Proof.
  apply (fold_sequence_in_bounds Samples.zero
           [Samples.ball 1; Samples.wicket; Samples.match_status "Innings Break"]).
  - exists 0, 0, 0, 0. split; [reflexivity | lia].
  - repeat constructor.
    + intros _. eexists _, 1. split; [reflexivity|]. split; [reflexivity | lia].
    + intros [H|H]; discriminate H.
    + intros [H|H]; discriminate H.
Defined.

End AppMore.

(** ** The coordinator of App.js and the mock stream *)

Module CoordinatorMore.
Import JS App CoordinatorFacts.

Local Open Scope string_scope.
Local Open Scope list_scope.

(** Every entry of a pool makes a well-formed event. *)
Lemma pool_numeric (pool : list (string * Event.Payload)) (i : nat)
    (type : string) (payload : Event.Payload) (id timestamp : string) :
  pool = App.EVENT_POOL →
  pool !! i = Some (type, payload) →
  Streams.numeric_runs (Event.mk type (Some payload) id timestamp).
Proof.
  intros -> Hi. unfold Streams.numeric_runs. simpl.
  do 6 (destruct i as [|i]; [injection Hi as <- <-; simpl;
    first [ intros _; eexists _, _; split; [reflexivity|]; split; [reflexivity|lia]
          | intros [H|H]; discriminate H ] |]).
  discriminate Hi.
Qed.

Lemma mock_pool_same : Streams.EVENT_POOL = App.EVENT_POOL.
Proof. reflexivity. Qed.

Lemma tracks_tick st evs t :
  tracks st evs ∧ Forall Streams.numeric_runs evs →
  ∃ evs', tracks (Streams.tick st t) evs' ∧ Forall Streams.numeric_runs evs'.
Proof.
  intros [Htr Hall]. destruct t as [i id timestamp|]; simpl.
  - unfold producerTick.
    destruct (EVENT_POOL !! i) as [[type payload]|] eqn:Hi.
    + exists (evs ++ [Event.mk type (Some payload) id timestamp]). split.
      * apply (tracks_step st evs (Produce (Event.mk type (Some payload) id timestamp))), Htr.
      * apply Forall_app. split; [done|]. constructor; [|done].
        by eapply pool_numeric.
    + exists evs. split; [|done]. by destruct st.
  - exists evs. split; [|done].
    pose proof (tracks_step st evs Drain Htr) as H.
    by rewrite app_nil_r in H.
Qed.

Lemma tracks_ticks st evs ts :
  tracks st evs ∧ Forall Streams.numeric_runs evs →
  ∃ evs', tracks (Streams.ticks st ts) evs' ∧ Forall Streams.numeric_runs evs'.
Proof.
  unfold Streams.ticks. revert st evs.
  induction ts as [|t ts IH]; intros st evs H; simpl; [by exists evs|].
  destruct (tracks_tick st evs t H) as (evs' & H'). by apply (IH _ evs').
Qed.

Lemma length_snapshot (applied : list Event.t) :
  (length (RingBuffer.toArrayDesc (RingBuffer.pushes (RingBuffer.new 100) applied))
   ≤ 100)%nat.
Proof.
  rewrite RingBufferFacts.toArrayDesc_pushes by lia.
  rewrite length_fmap, length_take. lia.
Qed.

(** X8: the component as wired.  After any interleaving of producer ticks
    (any index the draw can give, any id and time string) and drain ticks
    from the initial state, no state update has raised, the summary is
    within the scoreboard bounds, and the feed is the snapshot of the ring
    buffer, of at most 100 entries. *)
Theorem component_stays_sound (ts : list Streams.Tick) :
  Forall Streams.drawn ts →
  let st := Streams.ticks (initialRefs, Ok initialView) ts in
  ∃ v, st.2 = Ok v ∧
       Spec.in_bounds (summary v) ∧
       feed v = RingBuffer.toArrayDesc (buffer st.1) ∧
       (length (feed v) ≤ 100)%nat.
Proof.
  intros _ st.
  destruct (tracks_ticks (initialRefs, Ok initialView) [] ts) as (evs & Htr & Hall).
  { split; [apply tracks_initial | constructor]. }
  fold st in Htr. destruct Htr as (applied & Hevs & Hbuf & Hview).
  rewrite <- Hevs in Hall. apply Forall_app in Hall as [Happlied _].
  destruct (AppMore.foldM_in_bounds (summary initialView) applied) as (s' & Hs' & Hb');
    [exists 0%Z, 0%Z, 0%Z, 0%Z; split; [reflexivity | lia] | done |].
  rewrite Hs' in Hview. simpl in Hview.
  eexists. split; [exact Hview|]. simpl. split; [done|]. split; [done|].
  rewrite Hbuf. apply length_snapshot.
Qed.

Lemma component_stays_sound_witness :
  let st := Streams.ticks (initialRefs, Ok initialView)
              [Streams.ProducerTick 2 "1700000000000.1" "12:00:00";
               Streams.ProducerTick 5 "1700000003000.2" "12:00:03";
               Streams.DrainTick] in
  ∃ v, st.2 = Ok v ∧
       Spec.in_bounds (summary v) ∧
       feed v = RingBuffer.toArrayDesc (buffer st.1) ∧
       (length (feed v) ≤ 100)%nat.
Proof.
  apply (component_stays_sound
           [Streams.ProducerTick 2 "1700000000000.1" "12:00:00";
            Streams.ProducerTick 5 "1700000003000.2" "12:00:03";
            Streams.DrainTick]).
  repeat constructor; simpl; lia.
Defined.

(** X9: what the feed shows.  In any run of the component (any events)
    whose updates have not raised, the events applied so far and the
    events still queued make up the produced events in order, the feed is
    the 100 most recently applied events, newest first, and the summary is
    the fold over the applied events. *)
Theorem published_views (acts : list Action) (v : View) :
  (run (initialRefs, Ok initialView) acts).2 = Ok v →
  ∃ applied,
    applied ++ queueRef (run (initialRefs, Ok initialView) acts).1 = produced acts ∧
    feed v = Item <$> take 100 (reverse applied) ∧
    (length (feed v) ≤ 100)%nat ∧
    foldM applyEvent (summary initialView) applied = Ok (summary v).
Proof.
  intros Hv.
  pose proof (tracks_run (initialRefs, Ok initialView) [] acts tracks_initial)
    as (applied & Hevs & Hbuf & Hview).
  simpl in Hevs. exists applied. split; [done|].
  rewrite Hv in Hview.
  destruct (foldM applyEvent (summary initialView) applied) as [s|]; [|done].
  simpl in Hview. injection Hview as ->. simpl.
  rewrite Hbuf. split; [|split; [apply length_snapshot | done]].
  by rewrite RingBufferFacts.toArrayDesc_pushes by lia.
Qed.

Lemma published_views_witness :
  ∃ applied,
    applied ++ queueRef (run (initialRefs, Ok initialView)
                           [Produce (Samples.ball 1); Drain; Produce Samples.wicket]).1
    = produced [Produce (Samples.ball 1); Drain; Produce Samples.wicket] ∧
    feed {| feed := [Item (Samples.ball 1)]; summary := Samples.summary 1 0 0 1 |}
    = Item <$> take 100 (reverse applied) ∧
    (length (feed {| feed := [Item (Samples.ball 1)];
                     summary := Samples.summary 1 0 0 1 |}) ≤ 100)%nat ∧
    foldM applyEvent (summary initialView) applied
    = Ok (summary {| feed := [Item (Samples.ball 1)];
                     summary := Samples.summary 1 0 0 1 |}).
Proof.
  apply (published_views [Produce (Samples.ball 1); Drain; Produce Samples.wicket]).
  reflexivity.
Defined.

(** X10: a drain right after a drain is a no-op: it finds the queue empty,
    leaves the refs as they are and requests no update. *)
Theorem drain_twice (r : Refs) :
  drainTick (drainTick r).1 = ((drainTick r).1, []).
Proof.
  apply drainTick_empty.
  destruct (decide (queueRef r = [])) as [Hq|Hq].
  - by rewrite drainTick_empty.
  - by rewrite drainTick_batch.
Qed.

(** X11: the hook of mockStream.js.  For every index inside the pool the
    callback receives exactly one event, carrying the given id and time
    string, a payload object and, for BALL and BOUNDARY, non-negative
    integer runs, so [applyEvent] of App.js never raises on it; given the
    queue push as its callback, the hook is the producer interval of
    App.js. *)
Theorem mock_stream_events {R : Type} (onEvent : Event.t → R → R)
    (i : nat) (id timestamp : string) (world : R) (r : Refs) :
  (i < 6)%nat →
  (∃ evt, Streams.useMockStream onEvent i id timestamp world = onEvent evt world ∧
          Event.id evt = id ∧ Event.timestamp evt = timestamp ∧
          Streams.numeric_runs evt ∧
          ∀ s, applyEvent s evt ≠ TypeError) ∧
  Streams.useMockStream (λ evt r, enqueue r evt) i id timestamp r =
  producerTick r i id timestamp.
Proof.
  intros Hi. split; [|done].
  unfold Streams.useMockStream.
  destruct (Streams.EVENT_POOL !! i) as [[type payload]|] eqn:Hpool.
  - eexists. split; [done|]. split; [done|]. split; [done|]. split.
    + by eapply pool_numeric.
    + intros s Hthrow. apply AppMore.applyEvent_TypeError in Hthrow as [_ [=]].
  - apply lookup_ge_None in Hpool. simpl in Hpool. lia.
Qed.

Lemma mock_stream_events_witness :
  ∃ evt, Streams.useMockStream (λ evt q, q ++ [evt]) 5 "1700000000000" "12:00:00" []
         = [] ++ [evt] ∧
         Event.id evt = "1700000000000" ∧ Event.timestamp evt = "12:00:00" ∧
         Streams.numeric_runs evt ∧
         ∀ s, applyEvent s evt ≠ TypeError.
Proof.
  apply (mock_stream_events (λ evt q, q ++ [evt]) 5 "1700000000000" "12:00:00" []
           initialRefs).
  lia.
Defined.

End CoordinatorMore.

(** ** The reducer of test.js: overs, commentary, the simulated stream *)

Module FeedMore.
Import JS.

Local Open Scope string_scope.
Local Open Scope list_scope.
Local Open Scope Z_scope.

Lemma add_0_r (a : number) : add a (Int 0) = a.
Proof. destruct a; simpl; [by rewrite Z.add_0_r | done]. Qed.

Lemma not_resets_marker (event : Event.t) :
  Event.type event = "MATCH_STATUS" →
  ¬ Streams.resets event →
  includes (toLowerCase (Feed.status_or_default (Event.status (Feed.payload_of event))))
    "new innings" = false.
Proof.
  intros Hty Hno. apply not_true_is_false. intros Hinc.
  apply Hno. split; [done|]. by apply StringFacts.includes_new_innings.
Qed.

(** One [applyEvent]: the entry it prepends, and what it adds to the
    totals when it does not reset them. *)
Lemma applyEvent_entry env state event :
  ∃ dr flag,
    Feed.commentary (Feed.applyEvent env state event) =
    Feed.mkEntry event (Feed.now env, Feed.random env) (Feed.now env) dr flag
    :: Feed.commentary state ∧
    (flag = true ↔ ¬ Cards.known (Event.type event)) ∧
    (¬ Streams.resets event →
     Feed.totalRuns (Feed.applyEvent env state event) =
     add (Feed.totalRuns state) (default (Int 0) dr)).
Proof.
  unfold Feed.applyEvent, Cards.known.
  destruct (decide (Event.type event = "BALL")) as [Hb|Hb];
    [|destruct (decide (Event.type event = "BOUNDARY")) as [Hbd|Hbd];
      [|destruct (decide (Event.type event = "WICKET")) as [Hw|Hw];
        [|destruct (decide (Event.type event = "MATCH_STATUS")) as [Hm|Hm]]]];
    simpl.
  - eexists _, _. split; [done|]. split; [|done]. split; [done | tauto].
  - eexists _, _. split; [done|]. split; [|done]. split; [done | tauto].
  - eexists _, _. split; [done|]. split; [|by rewrite add_0_r].
    split; [done | tauto].
  - destruct (includes _ _) eqn:Hinc; simpl.
    + eexists _, _. split; [done|]. split; [split; [done | tauto]|].
      intros Hno. by rewrite not_resets_marker in Hinc.
    + eexists _, _. split; [done|]. split; [|by rewrite add_0_r].
      split; [done | tauto].
  - eexists _, _. split; [done|]. split; [|by rewrite add_0_r].
    split; [tauto | done].
Qed.

Lemma dispatches_snoc state l a :
  Streams.dispatches state (l ++ [a]) =
  Feed.applyEvent a.1 (Streams.dispatches state l) a.2.
Proof. unfold Streams.dispatches. by rewrite foldl_snoc. Qed.

(** X12: [formatOvers] splits a non-negative ball count into completed
    overs and balls of the current over: the two parts recompose to the
    count and the second is between 0 and 5. *)
Theorem formatOvers_decomposes (balls : Z) :
  0 ≤ balls →
  ∃ completedOvers ballsInCurrent : Z,
    Feed.formatOvers (Int balls) = (Int completedOvers, Int ballsInCurrent) ∧
    6 * completedOvers + ballsInCurrent = balls ∧
    0 ≤ completedOvers ∧ 0 ≤ ballsInCurrent ≤ 5.
Proof.
  intros Hb. exists (balls / 6), (balls mod 6).
  unfold Feed.formatOvers. simpl. rewrite Z.rem_mod_nonneg by lia.
  split; [done|].
  pose proof (Z.div_mod balls 6). pose proof (Z.mod_pos_bound balls 6).
  pose proof (Z.div_pos balls 6). lia.
Qed.

Lemma formatOvers_decomposes_witness :
  ∃ completedOvers ballsInCurrent : Z,
    Feed.formatOvers (Int 119) = (Int completedOvers, Int ballsInCurrent) ∧
    6 * completedOvers + ballsInCurrent = 119 ∧
    0 ≤ completedOvers ∧ 0 ≤ ballsInCurrent ≤ 5.
Proof. apply (formatOvers_decomposes 119). lia. Defined.

(** X13: the reducer's commentary never drops anything.  After any
    sequence of dispatched events the commentary holds one entry per
    event, newest first, in front of the entries it had, each entry stamped
    with the clock and random values of its own dispatch. *)
Theorem commentary_keeps_everything (state : Feed.State)
    (l : list (Feed.Env * Event.t)) :
  let state' := Streams.dispatches state l in
  Feed.event <$> Feed.commentary state' =
    reverse (l.*2) ++ (Feed.event <$> Feed.commentary state) ∧
  (λ e, (Feed._id e, Feed._receivedAt e)) <$> take (length l) (Feed.commentary state') =
    reverse ((λ a, ((Feed.now a.1, Feed.random a.1), Feed.now a.1)) <$> l) ∧
  drop (length l) (Feed.commentary state') = Feed.commentary state.
Proof.
  cbv zeta. induction l as [|a l IH] using rev_ind; [done|].
  rewrite dispatches_snoc.
  destruct (applyEvent_entry a.1 (Streams.dispatches state l) a.2)
    as (dr & flag & -> & _ & _).
  destruct IH as (IH1 & IH2 & IH3).
  rewrite !fmap_app, !reverse_app, length_app.
  replace (length l + length [a])%nat with (S (length l)) by (simpl; lia).
  rewrite fmap_cons, firstn_cons, skipn_cons. split_and!.
  - by rewrite IH1.
  - by rewrite fmap_cons, IH2.
  - done.
Qed.

Lemma applyEvent_WICKET env state event :
  Event.type event = "WICKET" →
  Feed.totalRuns (Feed.applyEvent env state event) = Feed.totalRuns state ∧
  Feed.wickets (Feed.applyEvent env state event) = add (Feed.wickets state) (Int 1) ∧
  Feed.balls (Feed.applyEvent env state event) = add (Feed.balls state) (Int 1).
Proof. intros Hty. by FeedFacts.at_type Hty. Qed.

Lemma applyEvent_quiet env state event :
  ¬ App.scoring event → ¬ Streams.resets event →
  Feed.totalRuns (Feed.applyEvent env state event) = Feed.totalRuns state ∧
  Feed.wickets (Feed.applyEvent env state event) = Feed.wickets state ∧
  Feed.balls (Feed.applyEvent env state event) = Feed.balls state.
Proof.
  intros Hns Hnr. unfold App.scoring in Hns. unfold Feed.applyEvent.
  rewrite (decide_False (P:=Event.type event = "BALL")) by tauto.
  rewrite (decide_False (P:=Event.type event = "BOUNDARY")) by tauto.
  rewrite (decide_False (P:=Event.type event = "WICKET")) by tauto.
  case_decide as Hm; simpl; [|done].
  by rewrite not_resets_marker.
Qed.

Lemma total_is_sum_step env state event :
  ¬ Streams.resets event →
  Feed.totalRuns state = Streams.shown_runs (Feed.commentary state) →
  Feed.totalRuns (Feed.applyEvent env state event) =
  Streams.shown_runs (Feed.commentary (Feed.applyEvent env state event)).
Proof.
  intros Hnr Hsum.
  destruct (applyEvent_entry env state event) as (dr & flag & Hc & _ & Ht).
  rewrite Hc, Ht by done. simpl. by rewrite Hsum.
Qed.

(** X14: while no new-innings status is dispatched, the reducer's
    [totalRuns] is the sum of the [displayRuns] of the commentary entries:
    the score and the feed tell the same runs. *)
Theorem total_is_sum_of_shown (state : Feed.State) (l : list (Feed.Env * Event.t)) :
  Feed.totalRuns state = Streams.shown_runs (Feed.commentary state) →
  Forall (λ a, ¬ Streams.resets a.2) l →
  Feed.totalRuns (Streams.dispatches state l) =
  Streams.shown_runs (Feed.commentary (Streams.dispatches state l)).
Proof.
  intros Hsum. induction l as [|a l IH] using rev_ind; intros Hall; [done|].
  apply Forall_app in Hall as [Hl Ha]. apply Forall_inv in Ha.
  rewrite dispatches_snoc. apply total_is_sum_step; [done|]. by apply IH.
Qed.

Lemma total_is_sum_of_shown_witness :
  Feed.totalRuns
    (Streams.dispatches Feed.initialState
       [(Samples.env1, Samples.boundary 0); (Samples.env2, Samples.ball 2)]) =
  Streams.shown_runs
    (Feed.commentary
       (Streams.dispatches Feed.initialState
          [(Samples.env1, Samples.boundary 0); (Samples.env2, Samples.ball 2)])).
Proof.
  apply (total_is_sum_of_shown Feed.initialState
           [(Samples.env1, Samples.boundary 0); (Samples.env2, Samples.ball 2)]).
  - reflexivity.
  - repeat constructor; intros [H _]; discriminate H.
Defined.

Lemma carry_arith (B : Z) :
  0 ≤ B →
  Z.min (Z.min (B / 6) 50 + (B mod 6 + 1) / 6) 50 = Z.min ((B + 1) / 6) 50 ∧
  (B mod 6 + 1) mod 6 = (B + 1) mod 6.
Proof.
  intros HB. split.
  - assert ((B + 1) / 6 = B / 6 + (B mod 6 + 1) / 6) as ->.
    { rewrite (Z.div_mod B 6) at 1 by lia.
      rewrite <- Z.add_assoc, Z.mul_comm, Z.div_add_l by lia. done. }
    pose proof (Z.mod_pos_bound B 6).
    pose proof (Z.div_pos (B mod 6 + 1) 6). lia.
  - by rewrite Z.add_mod_idemp_l by lia.
Qed.

(** One event keeps the summary of App.js the capped view of the
    reducer's totals. *)
Lemma agree_step env state event (R W B : Z) :
  Streams.plain_delivery event →
  0 ≤ R → 0 ≤ W → 0 ≤ B →
  Feed.totalRuns state = Int R → Feed.wickets state = Int W →
  Feed.balls state = Int B →
  ∃ R' W' B' : Z,
    0 ≤ R' ∧ 0 ≤ W' ∧ 0 ≤ B' ∧
    Feed.totalRuns (Feed.applyEvent env state event) = Int R' ∧
    Feed.wickets (Feed.applyEvent env state event) = Int W' ∧
    Feed.balls (Feed.applyEvent env state event) = Int B' ∧
    App.applyEvent (Streams.capped R W B) event = Ok (Streams.capped R' W' B').
Proof.
  intros (Hnum & Hnr & Hnz) HR HW HB HtR HtW HtB.
  pose proof (Z.mod_pos_bound B 6) as Hmod.
  destruct (carry_arith B HB) as [Hq Hm].
  destruct (decide (Event.type event = "BALL" ∨ Event.type event = "BOUNDARY"))
    as [Hball|Hnball].
  - destruct (Hnum Hball) as (payload & k & Hp & Hk & Hk0).
    assert (Feed.payload_of event = payload) as Hpo
      by (unfold Feed.payload_of; by rewrite Hp).
    exists (R + k), W, (B + 1).
    assert (Feed.totalRuns (Feed.applyEvent env state event) = Int (R + k) ∧
            Feed.balls (Feed.applyEvent env state event) = Int (B + 1) ∧
            Feed.wickets (Feed.applyEvent env state event) = Int W) as (-> & -> & ->).
    { destruct Hball as [Hty|Hty].
      - destruct (FeedFacts.applyEvent_BALL env state event Hty) as (-> & -> & ->).
        rewrite Hpo, Hk, HtR, HtW, HtB. split; [|done].
        destruct (decide (k = 0)) as [->|Hk1]; [done|].
        by rewrite <- Hk, (FeedFacts.or_default_nonzero _ _ k).
      - destruct (FeedFacts.applyEvent_BOUNDARY env state event Hty) as (-> & -> & ->).
        rewrite HtR, HtW, HtB. split; [|done].
        rewrite (FeedFacts.or_default_nonzero _ _ k); [done|by rewrite Hpo|].
        intros ->. apply Hnz; [done|]. by rewrite Hpo.
    }
    split_and!; try done; try lia.
    rewrite AppFacts.applyEvent_ball, Hp by done. unfold Streams.capped. simpl.
    rewrite Hk. simpl. rewrite AppMore.applyEvent_tail_closed by lia.
    rewrite Hq, Hm. do 2 f_equal; f_equal; lia.
  - destruct (decide (Event.type event = "WICKET")) as [Hw|Hnw].
    + exists R, (W + 1), (B + 1).
      destruct (applyEvent_WICKET env state event Hw) as (-> & -> & ->).
      rewrite HtR, HtW, HtB. split_and!; try done; try lia.
      rewrite AppFacts.applyEvent_wicket by done. unfold Streams.capped. simpl.
      rewrite AppMore.applyEvent_tail_closed by lia.
      rewrite Hq, Hm. do 2 f_equal; f_equal; lia.
    + exists R, W, B.
      assert (¬ App.scoring event) as Hns by (unfold App.scoring; tauto).
      destruct (applyEvent_quiet env state event Hns Hnr) as (-> & -> & ->).
      split_and!; try done.
      by rewrite AppFacts.applyEvent_other.
Qed.

Lemma agree_run (l : list (Feed.Env * Event.t)) :
  Forall (λ a, Streams.plain_delivery a.2) l →
  ∃ R W B : Z,
    0 ≤ R ∧ 0 ≤ W ∧ 0 ≤ B ∧
    Feed.totalRuns (Streams.dispatches Feed.initialState l) = Int R ∧
    Feed.wickets (Streams.dispatches Feed.initialState l) = Int W ∧
    Feed.balls (Streams.dispatches Feed.initialState l) = Int B ∧
    foldM App.applyEvent (App.summary App.initialView) (l.*2) =
    Ok (Streams.capped R W B).
Proof.
  induction l as [|a l IH] using rev_ind; intros Hall.
  - exists 0, 0, 0. by split_and!.
  - apply Forall_app in Hall as [Hl Ha]. apply Forall_inv in Ha.
    destruct (IH Hl) as (R & W & B & HR & HW & HB & HtR & HtW & HtB & Hfold).
    destruct (agree_step a.1 (Streams.dispatches Feed.initialState l) a.2 R W B)
      as (R' & W' & B' & HR' & HW' & HB' & HtR' & HtW' & HtB' & Hstep); try done.
    exists R', W', B'. rewrite dispatches_snoc. split_and!; try done.
    rewrite fmap_app, CoordinatorFacts.foldM_app, Hfold. simpl.
    by rewrite Hstep.
Qed.

(** X15: the two accumulators agree.  For any sequence of events that are
    well formed for App.js, carry no new-innings status and no BOUNDARY
    with zero runs, the summary App.js folds from zero is the capped view
    of the reducer's totals: runs capped at 300, wickets at 10, and
    [overs.balls] equal to [formatOvers] of the reducer's ball count, with
    the overs capped at 50. *)
Theorem accumulators_agree (l : list (Feed.Env * Event.t)) :
  Forall (λ a, Streams.plain_delivery a.2) l →
  let state := Streams.dispatches Feed.initialState l in
  ∃ R W B : Z,
    Feed.totalRuns state = Int R ∧ Feed.wickets state = Int W ∧
    Feed.balls state = Int B ∧
    Feed.formatOvers (Feed.balls state) = (Int (B / 6), Int (B mod 6)) ∧
    foldM App.applyEvent (App.summary App.initialView) (l.*2) =
    Ok (App.mkSummary (Int (Z.min R 300)) (Int (Z.min W 10))
          (Int (Z.min (B / 6) 50)) (Int (B mod 6))).
Proof.
  intros Hall state. subst state.
  destruct (agree_run l Hall) as (R & W & B & HR & HW & HB & HtR & HtW & HtB & Hfold).
  exists R, W, B. split_and!; try done.
  rewrite HtB. unfold Feed.formatOvers. simpl. by rewrite Z.rem_mod_nonneg by lia.
Qed.

Lemma accumulators_agree_witness :
  let l := [(Samples.env1, Samples.ball 1); (Samples.env2, Samples.wicket);
            (Samples.env2, Samples.boundary 6)] in
  let state := Streams.dispatches Feed.initialState l in
  ∃ R W B : Z,
    Feed.totalRuns state = Int R ∧ Feed.wickets state = Int W ∧
    Feed.balls state = Int B ∧
    Feed.formatOvers (Feed.balls state) = (Int (B / 6), Int (B mod 6)) ∧
    foldM App.applyEvent (App.summary App.initialView) (l.*2) =
    Ok (App.mkSummary (Int (Z.min R 300)) (Int (Z.min W 10))
          (Int (Z.min (B / 6) 50)) (Int (B mod 6))).
Proof.
  intros l.
  apply (accumulators_agree l).
  repeat constructor; simpl.
  - intros _. eexists _, 1. split; [reflexivity|]. split; [reflexivity | lia].
  - intros [H _]. discriminate H.
  - intros H. discriminate H.
  - intros [H|H]; discriminate H.
  - intros [H _]. discriminate H.
  - intros H. discriminate H.
  - intros _. eexists _, 6. split; [reflexivity|]. split; [reflexivity | lia].
  - intros [H _]. discriminate H.
  - intros _ H. discriminate H.
Defined.

End FeedMore.

(** ** The cards and the simulated stream of test.js *)

Module StreamMore.
Import JS.

Local Open Scope string_scope.
Local Open Scope list_scope.

Lemma flags_of_run (l : list (Feed.Env * Event.t)) :
  Forall (λ en, Feed._unknown en = true ↔ ¬ Cards.known (Event.type (Feed.event en)))
    (Feed.commentary (Streams.dispatches Feed.initialState l)).
Proof.
  induction l as [|a l IH] using rev_ind; [constructor|].
  rewrite FeedMore.dispatches_snoc.
  destruct (FeedMore.applyEvent_entry a.1 (Streams.dispatches Feed.initialState l) a.2)
    as (dr & flag & -> & Hflag & _).
  by constructor.
Qed.

Lemma renderItem_unknown (item : Event.t) :
  Cards.renderItem item = Cards.UnknownCard ↔ ¬ Cards.known (Event.type item).
Proof.
  unfold Cards.renderItem, Cards.known.
  repeat case_decide; split; try done; try tauto.
Qed.

Lemma card_of_entry (en : Feed.Entry) :
  (Feed._unknown en = true ↔ ¬ Cards.known (Event.type (Feed.event en))) →
  Cards.EventCard en = Cards.view_of (Cards.renderItem (Feed.event en)) ∧
  Cards.EventCard en ≠ Cards.Default.
Proof.
  intros Hflag. unfold Cards.EventCard, Cards.renderItem, Cards.known in *.
  destruct (Feed._unknown en).
  - assert (¬ (Event.type (Feed.event en) = "BALL" ∨
               Event.type (Feed.event en) = "BOUNDARY" ∨
               Event.type (Feed.event en) = "WICKET" ∨
               Event.type (Feed.event en) = "MATCH_STATUS")) as Hno by tauto.
    repeat case_decide; try tauto. done.
  - repeat case_decide; try done.
    assert (false = true) as Habs by (apply Hflag; tauto). discriminate Habs.
Qed.

(** X16: the two renderers agree on what the reducer produces.  For every
    entry of a commentary built by the reducer from its initial state,
    [EventCard] of test.js returns the view that corresponds to the card
    [renderItem] of App.js picks for the entry's event, and never reaches
    the [default] of its [switch]: an event of an unknown type is always
    flagged.  [renderItem] falls back to the unknown card exactly for the
    types outside BALL, BOUNDARY, WICKET, MATCH_STATUS. *)
Theorem cards_agree (l : list (Feed.Env * Event.t)) (en : Feed.Entry) :
  en ∈ Feed.commentary (Streams.dispatches Feed.initialState l) →
  Cards.EventCard en = Cards.view_of (Cards.renderItem (Feed.event en)) ∧
  Cards.EventCard en ≠ Cards.Default ∧
  (Cards.renderItem (Feed.event en) = Cards.UnknownCard ↔
   ¬ Cards.known (Event.type (Feed.event en))).
Proof.
  intros Hin.
  pose proof (flags_of_run l) as Hall.
  rewrite Forall_forall in Hall.
  destruct (card_of_entry en (Hall en Hin)) as [Hview Hdef].
  split; [done|]. split; [done|]. apply renderItem_unknown.
Qed.

Lemma cards_agree_witness :
  let en := Feed.mkEntry Samples.unknown
              (Feed.now Samples.env1, Feed.random Samples.env1)
              (Feed.now Samples.env1) None true in
  Cards.EventCard en = Cards.view_of (Cards.renderItem (Feed.event en)) ∧
  Cards.EventCard en ≠ Cards.Default ∧
  (Cards.renderItem (Feed.event en) = Cards.UnknownCard ↔
   ¬ Cards.known (Event.type (Feed.event en))).
Proof.
  intros en.
  apply (cards_agree [(Samples.env1, Samples.unknown)] en).
  apply list_elem_of_here.
Defined.

Lemma not_new_innings_break : ¬ Spec.new_innings "Innings Break".
Proof.
  intros H. apply StringFacts.includes_new_innings in H. discriminate H.
Qed.

Ltac not_a_reset :=
  intros [Hty Hmark]; simpl in Hty, Hmark;
  first [ discriminate Hty | by apply not_new_innings_break in Hmark ].

(** X17: the simulated stream of [CommentaryFeed].  At every tick, whatever
    the random draws (the floored one being 0, 1 or 2), the interval
    dispatches an event and raises nothing; the event is the sample of the
    tick modulo 8, a BALL carries 0, 1 or 2 runs and a BOUNDARY 4 or 6, so
    the reducer's defaults never replace its runs, and no dispatched status
    resets the score. *)
Theorem simulated_stream (idx : nat) (d : Streams.Draws) :
  (0 ≤ Streams.floor3 d ≤ 2)%Z →
  ∃ event,
    Streams.nextEvent idx d = Some event ∧
    Streams.nextEvent (idx + 8) d = Some event ∧
    Streams.plain_delivery event ∧
    (Event.type event = "BALL" →
     ∃ k, Event.runs (Feed.payload_of event) = VNum (Int k) ∧ (0 ≤ k ≤ 2)%Z) ∧
    (Event.type event = "BOUNDARY" →
     Event.runs (Feed.payload_of event) = VNum (Int 4) ∨
     Event.runs (Feed.payload_of event) = VNum (Int 6)).
Proof.
  intros Hk. unfold Streams.nextEvent, Streams.sampleEventGenerator.
  change (length Streams.SAMPLE_EVENTS) with 8%nat.
  replace ((idx + 8) mod 8)%nat with (idx mod 8)%nat
    by (replace (idx + 8)%nat with (idx + 1 * 8)%nat by lia;
        by rewrite Nat.Div0.mod_add).
  pose proof (Nat.mod_upper_bound idx 8) as Hlt.
  destruct d as [a k c]. simpl in Hk.
  destruct (idx mod 8)%nat as [|[|[|[|[|[|[|[|n]]]]]]]]; [..|lia];
    simpl; repeat (case_decide; try done);
    try destruct a; try destruct c; simpl;
    (eexists; split; [reflexivity|]; split; [reflexivity|];
     unfold Streams.plain_delivery, Streams.numeric_runs; simpl;
     split_and!;
     [ first [ intros _; eexists _, _; split; [reflexivity|];
               split; [reflexivity | lia]
             | intros [H|H]; discriminate H ]
     | not_a_reset
     | first [ intros _ H; discriminate H | intros H; discriminate H ]
     | first [ intros _; eexists; split; [reflexivity | lia]
             | intros H; discriminate H ]
     | first [ intros H; discriminate H
             | intros _; by left | intros _; by right ] ]).
Qed.

Lemma simulated_stream_witness :
  ∃ event,
    Streams.nextEvent 10 (Streams.mkDraws true 2 true) = Some event ∧
    Streams.nextEvent (10 + 8) (Streams.mkDraws true 2 true) = Some event ∧
    Streams.plain_delivery event ∧
    (Event.type event = "BALL" →
     ∃ k, Event.runs (Feed.payload_of event) = VNum (Int k) ∧ (0 ≤ k ≤ 2)%Z) ∧
    (Event.type event = "BOUNDARY" →
     Event.runs (Feed.payload_of event) = VNum (Int 4) ∨
     Event.runs (Feed.payload_of event) = VNum (Int 6)).
Proof.
  apply (simulated_stream 10 (Streams.mkDraws true 2 true)). simpl. lia.
Defined.

End StreamMore.

(** ** Purity of the two accumulators *)

Module PurityFacts.
Import JS Effects.

Local Open Scope string_scope.
Local Open Scope list_scope.



Lemma load_state_at (w : World) (l : nat) (st : Feed.State) :
  heap w !! l = Some (OState st) → load_state l w = Ok (st, w).
Proof. intros H. unfold load_state, and_then, load. by rewrite H. Qed.





(** Where the source assigns, the heap changes: the interval overwrites
    the runs of its copy of the sample. *)
Example set_runs_overwrites :
  let w := world (Samples.boundary 4) Samples.env1 in
  ∃ w', set_runs 2 6 w = Ok (tt, w') ∧
        heap w !! 2 = Some (OEvent (Samples.boundary 4)) ∧
        heap w' !! 2 = Some (OEvent (Samples.boundary 6)).
Proof. eexists. split; [reflexivity|]. split; reflexivity. Qed.

Example interval_dispatches_nextEvent :
  let w := world (Samples.ball 1) Samples.env1 in
  let d := Streams.mkDraws true 2 true in
  ∃ e w', Streams.nextEvent 2 d = Some e ∧
          outcome (interval 0 2 d w) = Ok (4, heap w') ∧
          heap w' !! 3 = Some (OEvent e) ∧
          heap w' !! 4 = Some (OState (Feed.applyEvent Samples.env1 Feed.initialState e)) ∧
          take 3 (heap w') = heap w.
Proof.
  eexists _, (mkWorld _ (λ _, 0%Z) (λ _, 0%Z) 0 0 []).
  split; [reflexivity|]. split; [reflexivity|]. split; [reflexivity|].
  split; reflexivity.
Qed.




End PurityFacts.
